(** * fritz_cleanup_fritzconnection.py: a shallow embedding

    The script resolves a TR-064 service on a FRITZ!Box, collects the results
    of a few read actions, mines connection-shaped dicts out of them, removes
    duplicates, selects the connections that were inactive for too long and
    (unless [DRY_RUN]) tries to close them.

    Conventions of the embedding.
    - Python [str] is [string]; text is taken to be ASCII (service names,
      action names and field names of TR-064 are ASCII identifiers), so
      [str.lower] only touches [A-Z] and comparison is byte-wise.
    - A [dict] is an association list in insertion order.
    - Library calls whose behaviour is not part of the script ([str],
      [int] on text, [strptime]/[timestamp], [fromtimestamp], the
      [FritzService] constructor and [call_action]) are variables of the
      section; an exception is the result [None].
    - Numbers in the data are integers, as the TR-064 layer delivers them.
    - The staleness loop is given twice. [find_stale_float] is the loop in
      the arithmetic of the interpreter: [time.time()] is a binary64 float
      ([spec_float] with 53 bits of precision), the timestamp is converted
      to a float, the difference is rounded, and what these steps raise
      ends the loop. [find_stale] is the same loop over an exact rational
      clock; the two agree where the float steps are exact. *)

From Stdlib Require Import ZArith QArith String Ascii List Bool Lia.
From Stdlib Require Import Floats.SpecFloat.
From stdpp Require Import base option list sorting strings pretty gmap.

Set Default Proof Using "Type".
Set Warnings "-clear-no-such-hyp".
Local Open Scope string_scope.
Local Open Scope Z_scope.
Local Open Scope list_scope.

(** ** Text *)

Module Text.

(** One character of [str.lower] on ASCII text. *)
Definition lower_ascii (c : ascii) : ascii :=
  let n := N_of_ascii c in
  if ((65 <=? n) && (n <=? 90))%N then ascii_of_N (n + 32) else c.

Fixpoint lower (s : string) : string :=
  match s with
  | EmptyString => EmptyString
  | String c s' => String (lower_ascii c) (lower s')
  end.

(** [starts_with s p]: [s.startswith(p)]. *)
Fixpoint starts_with (s p : string) {struct p} : bool :=
  match p, s with
  | EmptyString, _ => true
  | String _ _, EmptyString => false
  | String a p', String b s' => if Ascii.eqb a b then starts_with s' p' else false
  end.

(** [contains s p]: the Python test [p in s] on two strings. *)
Fixpoint contains (s p : string) : bool :=
  starts_with s p ||
  match s with
  | EmptyString => false
  | String _ s' => contains s' p
  end.

(** Python's [<=] on strings: lexicographic on the character codes, a
    proper prefix is smaller. *)
Fixpoint leb (s t : string) : bool :=
  match s, t with
  | EmptyString, _ => true
  | String _ _, EmptyString => false
  | String a s', String b t' =>
      if (N_of_ascii a <? N_of_ascii b)%N then true
      else if (N_of_ascii a =? N_of_ascii b)%N then leb s' t'
      else false
  end.

(** Python's [<=] on pairs of strings (tuples compare component-wise, the
    first differing component decides). *)
Definition pair_leb (p q : string * string) : bool :=
  if String.eqb p.1 q.1 then leb p.2 q.2 else leb p.1 q.1.

Definition pair_le : relation (string * string) :=
  fun p q => pair_leb p q = true.

#[global] Instance pair_le_dec p q : Decision (pair_le p q).
Proof. unfold pair_le. apply _. Defined.

End Text.

(** ** Values returned by the device *)

(** What [call_action] hands back: [None], booleans, integers, text, dicts
    and lists, nested at will. *)
Unset Elimination Schemes.
Inductive Value : Type :=
| VNone
| VBool (b : bool)
| VInt (n : Z)
| VStr (s : string)
| VDict (items : list (string * Value))
| VList (elems : list Value).
Set Elimination Schemes.

Abbreviation dict := (list (string * Value)).

(** Python truthiness, as used by [or], [if x:] and [if not x:]. *)
Definition truthy (v : Value) : bool :=
  match v with
  | VNone => false
  | VBool b => b
  | VInt n => negb (n =? 0)
  | VStr s => negb (String.eqb s "")
  | VDict items => match items with [] => false | _ => true end
  | VList elems => match elems with [] => false | _ => true end
  end.

(** [a or b]. *)
Definition py_or (a b : Value) : Value := if truthy a then a else b.

Module Dict.

(** [k in d]. *)
Definition mem (k : string) (d : dict) : bool :=
  existsb (String.eqb k) (map fst d).

Fixpoint lookup (k : string) (d : dict) : option Value :=
  match d with
  | [] => None
  | (k', v) :: d' => if String.eqb k k' then Some v else lookup k d'
  end.

(** [d.get(k)]: the value, or [None] when the key is missing. *)
Definition get (d : dict) (k : string) : Value :=
  match lookup k d with Some v => v | None => VNone end.

(** [d[k] = v]: overwrite in place, or append a new entry. *)
Fixpoint set (k : string) (v : Value) (d : dict) : dict :=
  match d with
  | [] => [(k, v)]
  | (k', v') :: d' =>
      if String.eqb k k' then (k, v) :: d' else (k', v') :: set k v d'
  end.

End Dict.

(** ** RecordExtractor: [find_conn_nodes] *)

Definition hint_keys : gset string :=
  list_to_set
    ["RemoteHost"; "RemotePort"; "Protocol"; "BytesSent"; "BytesReceived";
     "LastActivity"; "LastActive"; "ConnectionID"; "Id"; "ID"; "State"].

(** [keys & hint_keys] as a condition: the intersection is not empty. *)
Definition has_hint_key (obj : dict) : bool :=
  bool_decide (list_to_set (map fst obj) ∩ hint_keys ≠ (∅ : gset string)).

(** The walk of lines 93-108. [found] is the accumulator the loops extend;
    a dict that is appended is kept as its items. *)
Fixpoint find_conn_nodes (obj : Value) : list dict :=
  match obj with
  | VDict items =>
      if has_hint_key items then [] ++ [items]
      else
        (fix over_values (found : list dict) (vs : dict) : list dict :=
           match vs with
           | [] => found
           | (_, v) :: vs' => over_values (found ++ find_conn_nodes v) vs'
           end) [] items
  | VList elems =>
      (fix over_items (found : list dict) (its : list Value) : list dict :=
         match its with
         | [] => found
         | it :: its' => over_items (found ++ find_conn_nodes it) its'
         end) [] elems
  | _ => []
  end.

(** The second copy, lines 119-133. *)
Fixpoint find_conn_nodes2 (obj : Value) : list dict :=
  match obj with
  | VDict items =>
      if has_hint_key items then [] ++ [items]
      else
        (fix over_values (found : list dict) (vs : dict) : list dict :=
           match vs with
           | [] => found
           | (_, v) :: vs' => over_values (found ++ find_conn_nodes2 v) vs'
           end) [] items
  | VList elems =>
      (fix over_items (found : list dict) (its : list Value) : list dict :=
         match its with
         | [] => found
         | it :: its' => over_items (found ++ find_conn_nodes2 it) its'
         end) [] elems
  | _ => []
  end.

(** ** The service handle and the report *)

(** What the script reads off a service: its type name and [actions], a
    dict from action name to the parameter names the action declares. *)
Record Service : Type := {
  service_type : string;
  actions : list (string * list string)
}.

(** [action in svc.actions]. *)
Definition declares (svc : Service) (action : string) : bool :=
  existsb (String.eqb action) (map fst (actions svc)).

(** [svc.actions.get(action, {})]. *)
Fixpoint params_of (acts : list (string * list string)) (action : string) : list string :=
  match acts with
  | [] => []
  | (a, ps) :: acts' => if String.eqb action a then ps else params_of acts' action
  end.

(** One remote call as the run records it: the action, its keyword
    arguments, and whether it came back without raising. *)
Record Call : Type := {
  c_action : string;
  c_args : list (string * Value);
  c_ok : bool
}.

(** The lines the script prints, one constructor per [print]; the two
    prints of lines 71 and 73 are [NoService] and [ServiceSample]. *)
Inductive Output : Type :=
| ConnectFailed
| NoService
| ServiceSample (sample : list string)
| UsedService (name : string)
| PortMappings (n : Z)
| NoConnections
| NoStale
| ToClose (count : nat) (dry_run : bool)
| StaleLine (remote port connid : Value) (last : string) (age : Z)
| Executed (action : string)
| CouldNotClose.

(** How [main] ends: [sys.exit(code)], falling off its end, or an exception
    nobody catches. *)
Inductive Exit : Type :=
| SysExit (code : Z)
| Returned
| Uncaught.

(** [int(age)] on a number: truncation towards zero. *)
Definition py_trunc (q : Q) : Z := Z.quot (Qnum q) (Zpos (Qden q)).

(** Python floats: binary64. *)
Module Float.

(** [float(n)] for an integer, as the subtraction of line 176 converts its
    right operand: rounded to the nearest float, ties to even;
    [OverflowError] ([None]) beyond the range. *)
Definition of_int (n : Z) : option spec_float :=
  match binary_normalize 53 1024 n 0 false with
  | S754_infinity _ => None
  | f => Some f
  end.

(** [x - y] on two floats. *)
Definition sub (x y : spec_float) : spec_float := SFsub 53 1024 x y.

(** The number a finite float stands for. *)
Definition value (f : spec_float) : option Q :=
  match f with
  | S754_zero _ => Some 0%Q
  | S754_finite s m e =>
      let q :=
        match e with
        | Z0 => inject_Z (Zpos m)
        | Zpos p => inject_Z (Zpos m * 2 ^ Zpos p)
        | Zneg p => Qmake (Zpos m) (2 ^ p)
        end in
      Some (if s then Qopp q else q)
  | S754_infinity _ | S754_nan => None
  end.

(** [f >= n] for a float and an integer: Python compares the two numbers
    exactly; a NaN compares false, an infinity by its sign. *)
Definition ge_int (f : spec_float) (n : Z) : bool :=
  match f with
  | S754_nan => false
  | S754_infinity s => negb s
  | _ =>
      match value f with
      | Some q => Qle_bool (inject_Z n) q
      | None => false
      end
  end.

(** [int(f)]: truncation; [OverflowError] for an infinity and [ValueError]
    for a NaN are [None]. *)
Definition to_int (f : spec_float) : option Z :=
  match value f with
  | Some q => Some (py_trunc q)
  | None => None
  end.

End Float.

(** The configuration constants of lines 18-19; [main] below takes the two
    as arguments, the script is [main DRY_RUN THRESHOLD_SECONDS]. *)
Definition THRESHOLD_SECONDS : Z := 3600 * 24.
Definition DRY_RUN : bool := true.

Definition candidates : list string :=
  ["WANIPConnection"; "WANPPPConnection"; "ConnectionManager";
   "PPPConnection"; "WANCommonInterfaceConfig"; "DeviceInfo"; "Layer3Forwarding"].

Definition actions_to_try : list string :=
  ["GetActiveConnections"; "GetGenericConnections"; "GetConnectionList";
   "GetActivePortMappings"; "GetPortMappingNumberOfEntries"].

Definition close_actions : list string :=
  ["DeleteConnection"; "CloseConnection"; "ForceCloseConnection"; "DestroyConnection"].

Definition fmts : list string :=
  ["%Y-%m-%dT%H:%M:%S"; "%d.%m.%Y %H:%M:%S"; "%Y-%m-%d %H:%M:%S"].

Definition time_fields : list string :=
  ["LastActivity"; "LastActive"; "LastSeen"; "Time"; "Timestamp"].

Definition id_params : list string := ["ConnectionID"; "ID"; "Id"].

Section Script.

(** The device behind the session; every call may change it. *)
Variable World : Type.

(** [FritzService(fc, svcname)]; [None] when the constructor raises. *)
Variable FritzService : string → option Service.

(** [svc.call_action(action, **args)]; [None] when it raises. *)
Variable call_action : Service → string → dict → World → option Value * World.

(** The builtin [str]. *)
Variable py_str : Value → string.

(** The builtin [int] on text; [None] for [ValueError]. *)
Variable int_of_text : string → option Z.

(** [int(datetime.datetime.strptime(s, f).timestamp())]; [None] when
    either call raises. *)
Variable strptime_timestamp : string → string → option Z.

(** The rendering of [datetime.datetime.fromtimestamp(ts)]; [None] when
    [ts] is out of the platform's range and the call raises. *)
Variable fromtimestamp : Z → option string.

(** *** ServiceResolver: [try_service] *)

(** The inner loop of lines 28-33 for one fragment. *)
Fixpoint scan_services (frag : string) (services : list string) : option Service :=
  match services with
  | [] => None
  | svcname :: rest =>
      if Text.contains (Text.lower svcname) (Text.lower frag) then
        match FritzService svcname with
        | Some svc => Some svc
        | None => scan_services frag rest
        end
      else scan_services frag rest
  end.

Fixpoint try_service (services : list string) (service_type_fragments : list string)
  : option Service :=
  match service_type_fragments with
  | [] => None
  | frag :: rest =>
      match scan_services frag services with
      | Some svc => Some svc
      | None => try_service services rest
      end
  end.

(** *** [parse_time_str] *)

(** [int(s)]: numbers and booleans convert, text is parsed, anything else
    is a [TypeError]. *)
Definition py_int (s : Value) : option Z :=
  match s with
  | VBool b => Some (if b then 1 else 0)
  | VInt n => Some n
  | VStr t => int_of_text t
  | VNone | VDict _ | VList _ => None
  end.

(** One round of the loop over [fmts]; [strptime] wants text. *)
Definition try_fmt (s : Value) (f : string) : option Z :=
  match s with
  | VStr t => strptime_timestamp t f
  | _ => None
  end.

Fixpoint try_fmts (s : Value) (fs : list string) : option Z :=
  match fs with
  | [] => None
  | f :: fs' =>
      match try_fmt s f with
      | Some ts => Some ts
      | None => try_fmts s fs'
      end
  end.

Definition parse_time_str (s : Value) : option Z :=
  match s with
  | VNone => None
  | _ =>
      match py_int s with
      | Some n => Some n
      | None => try_fmts s fmts
      end
  end.

(** *** The run: device, calls made so far, lines printed so far *)

Record Run : Type := {
  world : World;
  calls : list Call;
  printed : list Output
}.

Definition print (o : Output) (st : Run) : Run :=
  {| world := world st; calls := calls st; printed := printed st ++ [o] |}.

(** A remote call: the device answers and moves on, the call is logged. *)
Definition invoke (svc : Service) (action : string) (args : dict) (st : Run)
  : option Value * Run :=
  let (res, w) := call_action svc action args (world st) in
  (res, {| world := w;
           calls := calls st ++ [{| c_action := action; c_args := args;
                                    c_ok := bool_decide (is_Some res) |}];
           printed := printed st |}).

(** *** ActionCollector: lines 84-136 *)

(** [for f in found: connections.append(f)]. *)
Definition append_all (connections found : list dict) : list dict :=
  fold_left (fun cs f => cs ++ [f]) found connections.

Fixpoint collect (svc : Service) (acts : list string) (connections : list dict) (st : Run)
  : list dict * Run :=
  match acts with
  | [] => (connections, st)
  | act :: rest =>
      if declares svc act then
        match invoke svc act [] st with
        | (None, st1) => collect svc rest connections st1
        | (Some res, st1) =>
            collect svc rest (append_all connections (find_conn_nodes res)) st1
        end
      else
        match invoke svc act [] st with
        | (None, st1) => collect svc rest connections st1
        | (Some res, st1) =>
            collect svc rest (append_all connections (find_conn_nodes2 res)) st1
        end
  end.

(** *** Deduplicator: lines 149-158 *)

(** [tuple(sorted([(k, str(v)) for k, v in c.items()]))]. *)
Definition conn_key (c : dict) : list (string * string) :=
  merge_sort Text.pair_le (map (fun kv => (kv.1, py_str kv.2)) c).

Definition dedup_step (acc : list dict * gset (list (string * string))) (c : dict)
  : list dict * gset (list (string * string)) :=
  let '(unique, seen) := acc in
  let key := conn_key c in
  if decide (key ∈ seen) then (unique, seen)
  else (unique ++ [c], seen ∪ {[ key ]}).

Definition dedup (connections : list dict) : list dict :=
  (fold_left dedup_step connections ([], ∅)).1.

(** *** StalenessEvaluator: lines 160-178 *)

(** The loop of lines 165-169 over the field names still to try. *)
Fixpoint first_field (c : dict) (fields : list string) : Value :=
  match fields with
  | [] => VNone
  | field :: rest =>
      if Dict.mem field c then Dict.get c field else first_field c rest
  end.

Definition stale_step (now : Q) (threshold : Z) (to_kill : list (dict * Z * Z)) (c : dict)
  : list (dict * Z * Z) :=
  let last := first_field c time_fields in
  match parse_time_str last with
  | None => to_kill
  | Some ts =>
      let age := (now - inject_Z ts)%Q in
      if Qle_bool (inject_Z threshold) age
      then to_kill ++ [(c, ts, py_trunc age)]
      else to_kill
  end.

Definition find_stale (now : Q) (threshold : Z) (connections : list dict)
  : list (dict * Z * Z) :=
  fold_left (stale_step now threshold) connections [].

(** The loop of lines 163-178 in the arithmetic of the interpreter. [now] is
    the float that [time.time()] returned. Line 176 converts [ts] to a float
    and subtracts, line 177 compares the float with the integer threshold,
    line 178 truncates; what the conversions raise is caught nowhere and
    ends the loop ([None]). *)
Definition stale_step_float (now : spec_float) (threshold : Z)
    (to_kill : list (dict * Z * Z)) (c : dict) : option (list (dict * Z * Z)) :=
  let last := first_field c time_fields in
  match parse_time_str last with
  | None => Some to_kill
  | Some ts =>
      match Float.of_int ts with
      | None => None
      | Some f =>
          let age := Float.sub now f in
          if Float.ge_int age threshold then
            match Float.to_int age with
            | Some n => Some (to_kill ++ [(c, ts, n)])
            | None => None
            end
          else Some to_kill
      end
  end.

Fixpoint stale_loop_float (now : spec_float) (threshold : Z) (connections : list dict)
    (to_kill : list (dict * Z * Z)) : option (list (dict * Z * Z)) :=
  match connections with
  | [] => Some to_kill
  | c :: rest =>
      match stale_step_float now threshold to_kill c with
      | Some to_kill' => stale_loop_float now threshold rest to_kill'
      | None => None
      end
  end.

Definition find_stale_float (now : spec_float) (threshold : Z) (connections : list dict)
  : option (list (dict * Z * Z)) :=
  stale_loop_float now threshold connections [].

(** *** ConnectionTerminator: lines 184-223 *)

Definition resolve_connid (c : dict) : Value :=
  py_or (py_or (Dict.get c "ConnectionID") (Dict.get c "Id")) (Dict.get c "ID").

Definition resolve_remote (c : dict) : Value :=
  py_or (py_or (Dict.get c "RemoteHost") (Dict.get c "Description")) (VStr "").

Definition resolve_port (c : dict) : Value :=
  py_or (py_or (Dict.get c "RemotePort") (Dict.get c "Port")) (VStr "").

(** Lines 199-214: the arguments of one close call. *)
Definition build_args (svc : Service) (action : string) (connid remote port : Value) : dict :=
  if truthy connid then
    let args :=
      fold_left
        (fun (args : dict) key =>
           if existsb (String.eqb key) (params_of (actions svc) action)
           then Dict.set key connid args else args)
        id_params [] in
    match args with
    | [] => [("ConnectionID", connid)]
    | _ => args
    end
  else
    let args := if truthy remote then Dict.set "RemoteHost" remote [] else [] in
    if truthy port then Dict.set "RemotePort" port args else args.

(** The loop of lines 196-221; the result is the flag [closed]. *)
Fixpoint try_close (svc : Service) (todo : list string) (connid remote port : Value)
    (st : Run) : bool * Run :=
  match todo with
  | [] => (false, st)
  | action :: rest =>
      if declares svc action then
        match invoke svc action (build_args svc action connid remote port) st with
        | (Some _, st1) => (true, print (Executed action) st1)
        | (None, st1) => try_close svc rest connid remote port st1
        end
      else try_close svc rest connid remote port st
  end.

(** The loop of lines 185-223. Formatting the line of a connection calls
    [fromtimestamp], and nothing catches what it raises. *)
Fixpoint terminate (dry_run : bool) (svc : Service) (to_kill : list (dict * Z * Z))
    (st : Run) : Exit * Run :=
  match to_kill with
  | [] => (Returned, st)
  | (c, ts, age) :: rest =>
      let connid := resolve_connid c in
      let remote := resolve_remote c in
      let port := resolve_port c in
      match fromtimestamp ts with
      | None => (Uncaught, st)
      | Some last =>
          let st1 := print (StaleLine remote port connid last age) st in
          if negb dry_run then
            match try_close svc close_actions connid remote port st1 with
            | (true, st2) => terminate dry_run svc rest st2
            | (false, st2) => terminate dry_run svc rest (print CouldNotClose st2)
            end
          else terminate dry_run svc rest st1
      end
  end.

(** *** [main] *)

(** Lines 140-145: the entry count, for information only. *)
Definition port_mapping_info (svc : Service) (st : Run) : Run :=
  if declares svc "GetPortMappingNumberOfEntries" then
    match invoke svc "GetPortMappingNumberOfEntries" [] st with
    | (Some (VDict items), st1) =>
        match Dict.lookup "NewPortMappingNumberOfEntries" items with
        | Some v =>
            match py_int v with
            | Some n => print (PortMappings n) st1
            | None => st1
            end
        | None => st1
        end
    | (_, st1) => st1
    end
  else st.

(** [fc] is the list [fc.services], or [None] when [FritzConnection(...)]
    raises; [now] is what [time.time()] returns at line 160. *)
Definition main (dry_run : bool) (threshold : Z) (fc : option (list string)) (now : Q)
    (w : World) : Exit * Run :=
  let st0 := {| world := w; calls := []; printed := [] |} in
  match fc with
  | None => (SysExit 1, print ConnectFailed st0)
  | Some services =>
      match try_service services candidates with
      | None =>
          (SysExit 1, print (ServiceSample (take 40 services)) (print NoService st0))
      | Some svc =>
          let st1 := print (UsedService (service_type svc)) st0 in
          let (connections, st2) := collect svc actions_to_try [] st1 in
          match connections with
          | [] => (SysExit 0, print NoConnections (port_mapping_info svc st2))
          | _ =>
              let to_kill := find_stale now threshold (dedup connections) in
              match to_kill with
              | [] => (SysExit 0, print NoStale st2)
              | _ =>
                  terminate dry_run svc to_kill
                    (print (ToClose (length to_kill) dry_run) st2)
              end
          end
      end
  end.

(** [main] with the clock as the float it is: the staleness loop is the one
    in float arithmetic, and what line 176 or 178 raises ends the run. *)
Definition main_float (dry_run : bool) (threshold : Z) (fc : option (list string))
    (now : spec_float) (w : World) : Exit * Run :=
  let st0 := {| world := w; calls := []; printed := [] |} in
  match fc with
  | None => (SysExit 1, print ConnectFailed st0)
  | Some services =>
      match try_service services candidates with
      | None =>
          (SysExit 1, print (ServiceSample (take 40 services)) (print NoService st0))
      | Some svc =>
          let st1 := print (UsedService (service_type svc)) st0 in
          let (connections, st2) := collect svc actions_to_try [] st1 in
          match connections with
          | [] => (SysExit 0, print NoConnections (port_mapping_info svc st2))
          | _ =>
              match find_stale_float now threshold (dedup connections) with
              | None => (Uncaught, st2)
              | Some [] => (SysExit 0, print NoStale st2)
              | Some to_kill =>
                  terminate dry_run svc to_kill
                    (print (ToClose (length to_kill) dry_run) st2)
              end
          end
      end
  end.

End Script.

Arguments world {World} _.
Arguments calls {World} _.
Arguments printed {World} _.
Arguments Build_Run {World} _ _ _.
Arguments print {World} _ _.
Arguments invoke {World} _ _ _ _ _.
Arguments collect {World} _ _ _ _ _.
Arguments try_close {World} _ _ _ _ _ _ _.
Arguments terminate {World} _ _ _ _ _ _.
Arguments port_mapping_info {World} _ _ _ _.
Arguments main {World} _ _ _ _ _ _ _ _ _ _ _.
Arguments main_float {World} _ _ _ _ _ _ _ _ _ _ _.

(** ** Vocabulary of the statements *)

(** A fragment matches a service name: line 29. *)
Definition matches (frag svcname : string) : bool :=
  Text.contains (Text.lower svcname) (Text.lower frag).

(** The resolver as the specification words it: the first fragment that
    matches some exposed name decides, and the first name it matches is the
    answer. *)
Fixpoint first_match (F S : list string) : option string :=
  match F with
  | [] => None
  | frag :: F' =>
      match filter (fun n => matches frag n = true) S with
      | n :: _ => Some n
      | [] => first_match F' S
      end
  end.

(** The number of dicts with a hint key anywhere in a value, those nested
    inside another such dict included. *)
Fixpoint hint_nodes (v : Value) : nat :=
  match v with
  | VDict items =>
      ((if has_hint_key items then 1 else 0) +
       (fix below (vs : dict) : nat :=
          match vs with
          | [] => 0
          | (_, x) :: vs' => hint_nodes x + below vs'
          end) items)%nat
  | VList elems =>
      (fix below (es : list Value) : nat :=
         match es with
         | [] => 0
         | x :: es' => hint_nodes x + below es'
         end%nat) elems
  | _ => 0%nat
  end.




(** The content of a record as the key sees it. *)
Definition str_items (py_str : Value → string) (c : dict) : list (string * string) :=
  map (fun kv => (kv.1, py_str kv.2)) c.

(** A key that is no hint key but spells one in another letter case. *)
Definition case_variant_of_hint (k : string) : Prop :=
  (k ∉ hint_keys) ∧ (∃ h, h ∈ hint_keys ∧ Text.lower k = Text.lower h).

(** The same for the names of the timestamp fields. *)
Definition case_variant_of_time_field (k : string) : Prop :=
  (k ∉ time_fields) ∧ (∃ f, f ∈ time_fields ∧ Text.lower k = Text.lower f).

(** What one pass of the staleness loop decides for a record. *)
Definition stale_entry (int_of_text : string → option Z)
    (strptime_timestamp : string → string → option Z)
    (now : Q) (threshold : Z) (c : dict) : option (dict * Z * Z) :=
  match parse_time_str int_of_text strptime_timestamp (first_field c time_fields) with
  | Some ts =>
      if Qle_bool (inject_Z threshold) (now - inject_Z ts)
      then Some (c, ts, py_trunc (now - inject_Z ts))
      else None
  | None => None
  end.

(** What one pass of the loop in float arithmetic decides for a record
    whose conversions do not raise. *)
Definition stale_entry_float (int_of_text : string → option Z)
    (strptime_timestamp : string → string → option Z)
    (now : spec_float) (threshold : Z) (c : dict) : option (dict * Z * Z) :=
  match parse_time_str int_of_text strptime_timestamp (first_field c time_fields) with
  | Some ts =>
      match Float.of_int ts with
      | Some f =>
          if Float.ge_int (Float.sub now f) threshold
          then match Float.to_int (Float.sub now f) with
               | Some n => Some (c, ts, n)
               | None => None
               end
          else None
      | None => None
      end
  | None => None
  end.

(** The float steps for a timestamp go through: it converts, and the
    difference is a finite float. *)
Definition float_steps_ok (now : spec_float) (ts : Z) : Prop :=
  ∃ f, Float.of_int ts = Some f ∧ is_Some (Float.value (Float.sub now f)).

(** The device after the given close actions were called in turn for one
    connection and every call raised; [None] when one of them came back. *)
Fixpoint all_fail {World : Type}
    (call_action : Service → string → dict → World → option Value * World)
    (svc : Service) (connid remote port : Value) (cands : list string) (w : World)
  : option World :=
  match cands with
  | [] => Some w
  | a :: rest =>
      match call_action svc a (build_args svc a connid remote port) w with
      | (None, w') => all_fail call_action svc connid remote port rest w'
      | (Some _, _) => None
      end
  end.

(** A timestamp the report can show. *)
Definition renderable (fromtimestamp : Z → option string) (x : dict * Z * Z) : Prop :=
  is_Some (fromtimestamp x.1.2).

(** The line of line 190 for a stale connection. *)
Definition stale_line (fromtimestamp : Z → option string) (x : dict * Z * Z) : Output :=
  StaleLine (resolve_remote x.1.1) (resolve_port x.1.1) (resolve_connid x.1.1)
    (default "" (fromtimestamp x.1.2)) x.2.

Definition is_stale_line (o : Output) : bool :=
  match o with StaleLine _ _ _ _ _ => true | _ => false end.

Definition is_outcome (o : Output) : bool :=
  match o with Executed _ | CouldNotClose => true | _ => false end.

(** The identifier as the specification words it: the value of the first
    of [ConnectionID], [Id], [ID] that the record has. *)
Definition first_present_id (c : dict) : Value :=
  first_field c ["ConnectionID"; "Id"; "ID"].

(** The binding as the specification words it: the identifier goes under
    the first of [ConnectionID], [ID], [Id] that the action declares, and
    under [ConnectionID] when it declares none. *)
Definition bind_first_declared (svc : Service) (action : string) (connid : Value) : dict :=
  match filter (fun k => existsb (String.eqb k) (params_of (actions svc) action) = true)
          id_params with
  | k :: _ => [(k, connid)]
  | [] => [("ConnectionID", connid)]
  end.

(** The names among [ConnectionID], [ID], [Id] that an action declares. *)
Definition declared_id_params (svc : Service) (action : string) : list string :=
  filter (fun k => existsb (String.eqb k) (params_of (actions svc) action) = true) id_params.

(** The candidates the service declares, in ranked order. *)
Definition declared_among (svc : Service) (todo : list string) : list string :=
  filter (fun a => declares svc a = true) todo.

(** The record of a close call for one connection. *)
Definition close_call (svc : Service) (connid remote port : Value) (ok : bool)
    (action : string) : Call :=
  {| c_action := action; c_args := build_args svc action connid remote port; c_ok := ok |}.

(** A call of one of the read actions, without arguments. *)
Definition is_read_call (cl : Call) : Prop :=
  c_action cl ∈ actions_to_try ∧ c_args cl = [].

(** The record of a read call. *)
Definition read_call (action : string) (ok : bool) : Call :=
  {| c_action := action; c_args := []; c_ok := ok |}.

(** ** A sample gateway

    One service with a connection list and a close action; the connection
    is the one of the end-to-end example of the specification. The library
    functions are cut down to what this device needs. *)
Module Sample.

Definition conn1 : dict :=
  [("ConnectionID", VStr "1"); ("RemoteHost", VStr "1.2.3.4");
   ("RemotePort", VStr "80"); ("LastActivity", VStr "1000")].

Definition raw : Value := VDict [("ConnectionList", VList [VDict conn1])].

Definition svc : Service :=
  {| service_type := "urn:dslforum-org:service:WANIPConnection:1";
     actions := [("GetConnectionList", []); ("DeleteConnection", ["ConnectionID"])] |}.

(** The device: [true] while connection 1 is open. *)
Definition World : Type := bool.

Definition FritzService (svcname : string) : option Service :=
  if String.eqb svcname "WANIPConnection1" then Some svc else None.

Definition call_action (s : Service) (action : string) (args : dict) (w : World)
  : option Value * World :=
  if String.eqb action "GetConnectionList" then
    (Some (VDict [("ConnectionList", VList (if w then [VDict conn1] else []))]), w)
  else if String.eqb action "DeleteConnection" then
    match args with
    | [("ConnectionID", VStr "1")] => if w then (Some VNone, false) else (None, w)
    | _ => (None, w)
    end
  else (None, w).

(** [str] on text; the sample holds nothing else. *)
Definition py_str (v : Value) : string :=
  match v with VStr s => s | _ => "" end.

Fixpoint digits (s : string) (acc : Z) : option Z :=
  match s with
  | EmptyString => Some acc
  | String c s' =>
      let n := N_of_ascii c in
      if ((48 <=? n) && (n <=? 57))%N
      then digits s' (10 * acc + Z.of_N (n - 48))
      else None
  end.

(** [int] on unsigned decimal literals. *)
Definition int_of_text (s : string) : option Z :=
  match s with
  | EmptyString => None
  | _ => digits s 0
  end.

(** No text of the sample is in one of the date formats. *)
Definition strptime_timestamp (s f : string) : option Z := None.

(** Times from the epoch on are rendered, earlier ones raise. *)
Definition fromtimestamp (ts : Z) : option string :=
  if 0 <=? ts then Some (pretty ts) else None.

(** A constructor that raises for every name. *)
Definition broken_FritzService (svcname : string) : option Service := None.

(** A record whose [ConnectionID] is the number 0. *)
Definition conn_zero : dict :=
  [("ConnectionID", VInt 0); ("Id", VStr "7"); ("LastActivity", VStr "1000")].

(** A service whose close action declares two of the identifier names. *)
Definition svc_two_names : Service :=
  {| service_type := "urn:dslforum-org:service:WANIPConnection:1";
     actions := [("DeleteConnection", ["ConnectionID"; "ID"])] |}.

(** A record that spells its fields in lower case. *)
Definition conn_lower : dict :=
  [("remotehost", VStr "1.2.3.4"); ("lastactivity", VStr "1000")].

(** The clock at 101000 and at 101000.5 seconds. *)
Definition now_whole : spec_float := S754_finite false 6940667150336000 (-36).
Definition now_half : spec_float := S754_finite false 6940701510074368 (-36).

(** The largest float below 1700000001, and a record last active in 1954. *)
Definition now_edge : spec_float := S754_finite false 7130316804194303 (-22).
Definition conn_old : dict :=
  [("ConnectionID", VStr "9"); ("LastActivity", VInt (-500000000))].

(** A record whose timestamp is beyond the range of floats. *)
Definition conn_huge : dict :=
  [("ConnectionID", VStr "8"); ("LastActivity", VInt (10 ^ 400))].

(** A device whose connection list holds a timestamp beyond the float
    range. *)
Definition call_huge (s : Service) (action : string) (args : dict) (w : World)
  : option Value * World :=
  if String.eqb action "GetConnectionList" then
    (Some (VDict [("ConnectionList", VList [VDict conn1; VDict conn_huge])]), w)
  else (None, w).

(** A record that names its peer under [Description] and [Port] only. *)
Definition conn_desc : dict :=
  [("Description", VStr "nas"); ("Port", VInt 443); ("State", VStr "open")].

(** A service that declares the count of port mappings, and a device that
    answers it with three entries. *)
Definition svc_ports : Service :=
  {| service_type := "urn:dslforum-org:service:WANIPConnection:1";
     actions := [("GetPortMappingNumberOfEntries", [])] |}.

Definition call_ports (s : Service) (action : string) (args : dict) (w : World)
  : option Value * World :=
  if String.eqb action "GetPortMappingNumberOfEntries" then
    (Some (VDict [("NewPortMappingNumberOfEntries", VStr "3")]), w)
  else (None, w).



End Sample.

(** * Properties *)

(** ** Text *)

Section TextFacts.

Import Text.

Lemma append_cons a s t : String.append (String a s) t = String a (String.append s t).
Proof. reflexivity. Qed.

Lemma append_nil t : String.append EmptyString t = t.
Proof. reflexivity. Qed.

Lemma starts_with_spec s p :
  starts_with s p = true ↔ ∃ b, s = String.append p b.
Proof.
  revert s; induction p as [|a p IH]; intros s; simpl.
  - split; [intros _; by exists s|done].
  - destruct s as [|b s].
    + split; [done|intros [? ?]; discriminate].
    + destruct (Ascii.eqb_spec a b) as [->|Hne].
      * rewrite IH. split; intros [t Ht]; exists t;
          rewrite append_cons in *; congruence.
      * split; [done|intros [t Ht]; rewrite append_cons in Ht; congruence].
Qed.

(** [contains s p] is the substring test. *)
Lemma contains_spec s p :
  contains s p = true ↔ ∃ a b, s = String.append a (String.append p b).
Proof.
  induction s as [|c s IH].
  - simpl. rewrite orb_false_r, starts_with_spec. split.
    + intros [b Hb]. by exists EmptyString, b.
    + intros [a [b Hab]]. destruct a; [by exists b|discriminate].
  - cbn [contains]. rewrite orb_true_iff, starts_with_spec, IH. split.
    + intros [[b Hb]|[a [b Hab]]].
      * by exists EmptyString, b.
      * exists (String c a), b. rewrite append_cons. by rewrite Hab.
    + intros [a [b Hab]]. destruct a as [|c' a].
      * left. by exists b.
      * right. exists a, b. rewrite append_cons in Hab. congruence.
Qed.

Lemma N_of_ascii_inj a b : N_of_ascii a = N_of_ascii b → a = b.
Proof.
  intros H. rewrite <- (ascii_N_embedding a), <- (ascii_N_embedding b).
  by rewrite H.
Qed.

Lemma leb_refl s : leb s s = true.
Proof.
  induction s as [|a s IH]; simpl; [done|].
  by rewrite N.ltb_irrefl, N.eqb_refl.
Qed.

Lemma leb_total s t : leb s t = true ∨ leb t s = true.
Proof.
  revert t; induction s as [|a s IH]; intros [|b t]; simpl; auto.
  destruct (N.ltb_spec (N_of_ascii a) (N_of_ascii b)); [by left|].
  destruct (N.ltb_spec (N_of_ascii b) (N_of_ascii a)); [by right|].
  assert (N_of_ascii a = N_of_ascii b) as -> by lia.
  rewrite N.eqb_refl. apply IH.
Qed.

Lemma leb_antisym s t : leb s t = true → leb t s = true → s = t.
Proof.
  revert t; induction s as [|a s IH]; intros [|b t]; simpl; try done.
  destruct (N.ltb_spec (N_of_ascii a) (N_of_ascii b));
    destruct (N.ltb_spec (N_of_ascii b) (N_of_ascii a)); try lia.
  - destruct (N.eqb_spec (N_of_ascii b) (N_of_ascii a)); [lia|done].
  - destruct (N.eqb_spec (N_of_ascii a) (N_of_ascii b)); [lia|done].
  - destruct (N.eqb_spec (N_of_ascii a) (N_of_ascii b)) as [Hab|]; [|done].
    rewrite Hab, N.eqb_refl. intros Hst Hts.
    f_equal; [by apply N_of_ascii_inj|by apply IH].
Qed.

Lemma leb_trans s t u : leb s t = true → leb t u = true → leb s u = true.
Proof.
  revert t u; induction s as [|a s IH]; intros [|b t] [|c u]; simpl; try done.
  destruct (N.ltb_spec (N_of_ascii a) (N_of_ascii b));
    destruct (N.ltb_spec (N_of_ascii b) (N_of_ascii c));
    destruct (N.ltb_spec (N_of_ascii a) (N_of_ascii c)); try done; try lia.
  - destruct (N.eqb_spec (N_of_ascii b) (N_of_ascii c)); [lia|done].
  - destruct (N.eqb_spec (N_of_ascii a) (N_of_ascii b)); [lia|done].
  - destruct (N.eqb_spec (N_of_ascii a) (N_of_ascii b)); [|done].
    destruct (N.eqb_spec (N_of_ascii b) (N_of_ascii c)); [|done].
    destruct (N.eqb_spec (N_of_ascii a) (N_of_ascii c)); [|lia].
    apply IH.
Qed.

#[global] Instance pair_le_total : Total pair_le.
Proof.
  intros [k1 v1] [k2 v2]. unfold pair_le, pair_leb; simpl.
  rewrite (String.eqb_sym k2 k1).
  destruct (String.eqb k1 k2); apply leb_total.
Qed.

#[global] Instance pair_le_antisym : AntiSymm (=) pair_le.
Proof.
  intros [k1 v1] [k2 v2]. unfold pair_le, pair_leb; simpl.
  rewrite (String.eqb_sym k2 k1).
  destruct (String.eqb_spec k1 k2) as [->|Hne]; intros H1 H2.
  - f_equal. by apply leb_antisym.
  - destruct Hne. by apply leb_antisym.
Qed.

#[global] Instance pair_le_trans : Transitive pair_le.
Proof.
  intros [k1 v1] [k2 v2] [k3 v3]. unfold pair_le, pair_leb; simpl.
  intros Ha Hb.
  destruct (String.eqb_spec k1 k2) as [E12|H12];
    destruct (String.eqb_spec k2 k3) as [E23|H23];
    destruct (String.eqb_spec k1 k3) as [E13|H13]; subst; try congruence.
  - by eapply leb_trans.
  - destruct H12. by apply leb_antisym.
  - by eapply leb_trans.
Qed.

(** A sorted key is sorted by field name. *)
Lemma pair_le_fst p q : pair_le p q → leb p.1 q.1 = true.
Proof.
  unfold pair_le, pair_leb. destruct (String.eqb_spec p.1 q.1) as [->|]; [|done].
  intros _. apply leb_refl.
Qed.

End TextFacts.

(** ** RecordExtractor *)

Lemma Value_nested_ind (P : Value → Prop) :
  P VNone → (∀ b, P (VBool b)) → (∀ n, P (VInt n)) → (∀ s, P (VStr s)) →
  (∀ items, Forall (fun kv => P kv.2) items → P (VDict items)) →
  (∀ elems, Forall P elems → P (VList elems)) →
  ∀ v, P v.
Proof.
  intros HN HB HI HS HD HL. fix IH 1.
  intros [|b|n|s|items|elems]; [exact HN|exact (HB b)|exact (HI n)|exact (HS s)| |].
  - apply HD. induction items as [|[k v] items IHi]; constructor; [apply IH|apply IHi].
  - apply HL. induction elems as [|v elems IHe]; constructor; [apply IH|apply IHe].
Qed.

Lemma find_conn_nodes_dict items :
  find_conn_nodes (VDict items) =
  if has_hint_key items then [items] else items ≫= (fun kv => find_conn_nodes kv.2).
Proof.
  cbn [find_conn_nodes]. destruct (has_hint_key items); [done|].
  rewrite <- (app_nil_l (items ≫= _)). generalize (@nil dict).
  induction items as [|[k v] items IH]; intros found.
  - by rewrite app_nil_r.
  - rewrite IH. cbn. by rewrite app_assoc.
Qed.

Lemma find_conn_nodes_list elems :
  find_conn_nodes (VList elems) = elems ≫= find_conn_nodes.
Proof.
  cbn [find_conn_nodes].
  rewrite <- (app_nil_l (elems ≫= _)). generalize (@nil dict).
  induction elems as [|v elems IH]; intros found.
  - by rewrite app_nil_r.
  - rewrite IH. cbn. by rewrite app_assoc.
Qed.

(** The two copies of the walk are the same function: their bodies are
    identical. *)
Lemma find_conn_nodes2_eq v : find_conn_nodes2 v = find_conn_nodes v.
Proof. reflexivity. Qed.

Lemma hint_nodes_dict items :
  hint_nodes (VDict items) =
  ((if has_hint_key items then 1 else 0) + sum_list (map (fun kv => hint_nodes kv.2) items))%nat.
Proof.
  cbn [hint_nodes]. f_equal.
  induction items as [|[k v] items IH]; [done|]. cbn. by rewrite IH.
Qed.

Lemma hint_nodes_list elems :
  hint_nodes (VList elems) = sum_list (map hint_nodes elems).
Proof.
  cbn [hint_nodes].
  induction elems as [|v elems IH]; [done|]. cbn. by rewrite IH.
Qed.

Lemma has_hint_key_spec items :
  has_hint_key items = true ↔ ∃ k, k ∈ map fst items ∧ k ∈ hint_keys.
Proof.
  unfold has_hint_key. rewrite bool_decide_eq_true. split.
  - intros Hne. apply set_choose_L in Hne as [k Hk].
    apply elem_of_intersection in Hk as [Hk1 Hk2].
    exists k. split; [by apply elem_of_list_to_set in Hk1|done].
  - intros [k [Hk1 Hk2]] Hempty.
    apply (not_elem_of_empty (C:=gset string) k). rewrite <- Hempty.
    apply elem_of_intersection. split; [by apply elem_of_list_to_set|done].
Qed.


(** Every record the walk returns has a hint key, spelled exactly. *)
Lemma find_conn_nodes_hint t r : r ∈ find_conn_nodes t → has_hint_key r = true.
Proof.
  induction t as [| | | |items IH|elems IH] using Value_nested_ind;
    try (cbn; by intros ?%elem_of_nil).
  - rewrite find_conn_nodes_dict. destruct (has_hint_key items) eqn:Hh.
    + by intros ->%list_elem_of_singleton.
    + intros [[k v] [Hr Hin]]%list_elem_of_bind.
      rewrite Forall_forall in IH. by apply (IH _ Hin).
  - rewrite find_conn_nodes_list. intros [v [Hr Hin]]%list_elem_of_bind.
    rewrite Forall_forall in IH. by apply (IH _ Hin).
Qed.


Lemma sum_list_zero (l : list nat) : sum_list l = 0%nat ↔ Forall (fun n => n = 0%nat) l.
Proof.
  induction l as [|n l IH]; simpl.
  - split; [constructor|done].
  - rewrite Forall_cons, <- IH. lia.
Qed.

(** No dict with a hint key anywhere: nothing is found; and never more
    records than such dicts. *)
Lemma find_conn_nodes_bounds t :
  (hint_nodes t = 0%nat → find_conn_nodes t = []) ∧
  (length (find_conn_nodes t) ≤ hint_nodes t)%nat ∧
  (find_conn_nodes t = [] → hint_nodes t = 0%nat).
Proof.
  induction t as [| | | |items IH|elems IH] using Value_nested_ind; try done.
  - rewrite find_conn_nodes_dict, hint_nodes_dict.
    destruct (has_hint_key items) eqn:Hh.
    + split; [lia|]. split; [simpl; lia|done].
    + simpl. clear Hh. induction IH as [|[k v] items Hv _ IHi]; [done|].
      cbn. rewrite length_app. simpl in Hv.
      destruct Hv as (H1 & H2 & H3), IHi as (I1 & I2 & I3).
      split; [|split].
      * intros H0. rewrite H1, I1 by lia. done.
      * apply Nat.add_le_mono; [done|]. apply I2.
      * intros [Ha Hb]%app_eq_nil. rewrite H3, I3 by done. done.
  - rewrite find_conn_nodes_list, hint_nodes_list.
    induction IH as [|v elems Hv _ IHe]; [done|].
    cbn. rewrite length_app.
    destruct Hv as (H1 & H2 & H3), IHe as (I1 & I2 & I3).
    split; [|split].
    + intros H0. rewrite H1, I1 by lia. done.
    + apply Nat.add_le_mono; [done|]. apply I2.
    + intros [Ha Hb]%app_eq_nil. rewrite H3, I3 by done. done.
Qed.





(** ** ServiceResolver *)

Section ResolverFacts.

Variable FritzService : string → option Service.

Lemma head_app {A} (l1 l2 : list A) :
  head (l1 ++ l2) = match head l1 with Some x => Some x | None => head l2 end.
Proof. by destruct l1. Qed.

Lemma scan_services_spec frag S :
  scan_services FritzService frag S =
  head (omap FritzService (filter (fun n => matches frag n = true) S)).
Proof.
  induction S as [|n S IH]; [done|].
  cbn [scan_services]. rewrite filter_cons. fold (matches frag n).
  destruct (matches frag n) eqn:Hm.
  - rewrite decide_True by done. cbn. destruct (FritzService n); [done|apply IH].
  - rewrite decide_False by done. apply IH.
Qed.

Lemma try_service_spec S F :
  try_service FritzService S F =
  head (omap FritzService (F ≫= fun f => filter (fun n => matches f n = true) S)).
Proof.
  induction F as [|f F IH]; [done|].
  cbn [try_service]. rewrite scan_services_spec, bind_cons, omap_app, head_app.
  destruct (head (omap FritzService (filter _ S))); [done|apply IH].
Qed.

Lemma head_omap_None {A B} (g : A → option B) (l : list A) :
  head (omap g l) = None ↔ ∀ x, x ∈ l → g x = None.
Proof.
  induction l as [|x l IH]; cbn.
  - split; [by intros _ ? ?%elem_of_nil|done].
  - destruct (g x) eqn:Hx; cbn.
    + split; [done|]. intros H. specialize (H x (list_elem_of_here _ _)). congruence.
    + rewrite IH. split.
      * intros H y [->|Hy]%elem_of_cons; auto.
      * intros H y Hy. apply H. by right.
Qed.

Lemma try_service_None S F :
  try_service FritzService S F = None ↔
  ∀ f n, f ∈ F → n ∈ S → matches f n = true → FritzService n = None.
Proof.
  rewrite try_service_spec, head_omap_None. split.
  - intros H f n Hf Hn Hm. apply H. apply list_elem_of_bind.
    exists f. split; [|done]. by apply list_elem_of_filter.
  - intros H n [f [[Hm Hn]%list_elem_of_filter Hf]]%list_elem_of_bind. eauto.
Qed.

Lemma first_match_None F S :
  first_match F S = None ↔ ∀ f n, f ∈ F → n ∈ S → matches f n = false.
Proof.
  induction F as [|f F IH]; cbn [first_match].
  - split; [by intros _ ? ? ?%elem_of_nil|done].
  - destruct (filter _ S) as [|n0 l] eqn:Hfil.
    + rewrite IH. split.
      * intros H g n Hg Hn. apply elem_of_cons in Hg as [->|Hg]; [|by apply H].
        destruct (matches f n) eqn:Hm; [|done].
        assert (n ∈ filter (fun n => matches f n = true) S) as Hin
          by (by apply list_elem_of_filter).
        rewrite Hfil in Hin. by apply elem_of_nil in Hin.
      * intros H g n Hg Hn. apply H; [by right|done].
    + split; [done|]. intros H.
      assert (n0 ∈ filter (fun n => matches f n = true) S) as Hin
        by (rewrite Hfil; left).
      apply list_elem_of_filter in Hin as [Hm Hn].
      rewrite (H f n0) in Hm; [done|by left|done].
Qed.

(** With a constructor that never raises on the exposed names, the loop is
    the resolver of the specification. *)
Lemma try_service_first_match S F :
  (∀ n, n ∈ S → is_Some (FritzService n)) →
  try_service FritzService S F = first_match F S ≫= FritzService.
Proof.
  intros Hok. induction F as [|f F IH]; [done|].
  cbn [try_service first_match]. rewrite scan_services_spec.
  destruct (filter _ S) as [|n0 l] eqn:Hfil; [by cbn|].
  assert (n0 ∈ S) as Hn0.
  { assert (n0 ∈ filter (fun n => matches f n = true) S) as Hin
      by (rewrite Hfil; left).
    by apply list_elem_of_filter in Hin as [_ ?]. }
  destruct (Hok n0 Hn0) as [svc Hsvc]. cbn. by rewrite Hsvc.
Qed.

End ResolverFacts.

(** C3, as the code has it. The resolver returns the handle of the first
    name, in the order of the double loop (fragments outside, exposed names
    inside), that contains the fragment without regard to case and for which
    the constructor of the handle does not raise; it finds nothing exactly
    when the constructor raises for every name that some fragment matches.
    Where the constructor succeeds on all exposed names this is the first
    name matching the first fragment that matches at all, and nothing is
    found exactly when no fragment matches any name. *)
Theorem resolver_first_constructible (FritzService : string → option Service)
    (S F : list string) :
  try_service FritzService S F =
    head (omap FritzService (F ≫= fun f => filter (fun n => matches f n = true) S)) ∧
  (try_service FritzService S F = None ↔
     ∀ f n, f ∈ F → n ∈ S → matches f n = true → FritzService n = None) ∧
  ((∀ n, n ∈ S → is_Some (FritzService n)) →
     try_service FritzService S F = first_match F S ≫= FritzService ∧
     (try_service FritzService S F = None ↔
        ∀ f n, f ∈ F → n ∈ S → matches f n = false)).
Proof.
  split; [apply try_service_spec|]. split; [apply try_service_None|].
  intros Hok. split; [by apply try_service_first_match|].
  rewrite try_service_first_match by done. rewrite <- first_match_None.
  destruct (first_match F S) as [n|] eqn:Hfm; [|done].
  cbn. split; [|done]. intros Hn.
  assert (n ∈ S) as HnS.
  { clear Hn. induction F as [|f F IH]; [done|]. cbn [first_match] in Hfm.
    destruct (filter _ S) as [|n0 l] eqn:Hfil; [by apply IH|].
    injection Hfm as ->.
    assert (n ∈ filter (fun n => matches f n = true) S) as Hin by (rewrite Hfil; left).
    by apply list_elem_of_filter in Hin as [_ ?]. }
  destruct (Hok n HnS) as [svc Hsvc]. congruence.
Qed.

Lemma resolver_first_constructible_witness :
  try_service Sample.FritzService ["WANIPConnection1"] candidates =
  first_match candidates ["WANIPConnection1"] ≫= Sample.FritzService.
Proof.
  refine (proj1 (proj2 (proj2
    (resolver_first_constructible Sample.FritzService ["WANIPConnection1"] candidates)) _)).
  intros n ->%list_elem_of_singleton. by eexists.
Defined.

(** C3 as stated fails where the constructor raises: a fragment matches an
    exposed name and still nothing is found. *)
Lemma resolver_not_found_despite_match :
  ¬ (try_service Sample.broken_FritzService ["WANIPConnection1"] candidates = None ↔
     ∀ f n, f ∈ candidates → n ∈ ["WANIPConnection1"] → matches f n = false).
Proof.
  intros [H _]. specialize (H eq_refl "WANIPConnection" "WANIPConnection1").
  assert (matches "WANIPConnection" "WANIPConnection1" = true) as Hm by reflexivity.
  rewrite H in Hm; [discriminate|left|left].
Qed.

(** ** Deduplicator *)

Section DedupFacts.

Variable py_str : Value → string.

Abbreviation key := (conn_key py_str).
Abbreviation step := (dedup_step py_str).

Lemma conn_key_perm c : key c ≡ₚ str_items py_str c.
Proof. apply merge_sort_Permutation. Qed.

Lemma conn_key_sorted c : StronglySorted Text.pair_le (key c).
Proof. apply (StronglySorted_merge_sort _). Qed.

(** [sorted] has one possible result: any sorted arrangement of the pairs
    is the key. *)
Lemma conn_key_unique c k :
  StronglySorted Text.pair_le k → k ≡ₚ str_items py_str c → k = key c.
Proof.
  intros Hs Hp. apply (StronglySorted_unique Text.pair_le); [done| |].
  - apply conn_key_sorted.
  - by rewrite Hp, conn_key_perm.
Qed.

Lemma conn_key_by_name c :
  StronglySorted (fun p q => Text.leb p.1 q.1 = true) (key c).
Proof.
  induction (conn_key_sorted c) as [|p k _ IH Hall]; constructor; [done|].
  eapply Forall_impl; [exact Hall|]. intros q. apply pair_le_fst.
Qed.

Lemma conn_key_eq_iff c1 c2 :
  key c1 = key c2 ↔ str_items py_str c1 ≡ₚ str_items py_str c2.
Proof.
  split.
  - intros Heq. by rewrite <- (conn_key_perm c1), Heq, conn_key_perm.
  - intros Hp. apply conn_key_unique; [apply conn_key_sorted|].
    by rewrite conn_key_perm.
Qed.

Lemma conn_key_reorder c1 c2 : c1 ≡ₚ c2 → key c1 = key c2.
Proof. intros Hp. apply conn_key_eq_iff. unfold str_items. by rewrite Hp. Qed.

(** The set [seen] holds the keys of everything walked so far. *)
Lemma dedup_seen l :
  (fold_left step l ([], ∅)).2 = list_to_set (key <$> l).
Proof.
  induction l as [|c l IH] using rev_ind; [done|].
  rewrite fold_left_app, fmap_app, list_to_set_app_L. cbn [fold_left fmap list_fmap].
  destruct (fold_left step l ([], ∅)) as [unique seen]. cbn [snd] in IH. subst seen.
  cbn [dedup_step]. case_decide; cbn [snd]; set_solver.
Qed.

Lemma dedup_snoc l c :
  dedup py_str (l ++ [c]) =
  if decide (key c ∈ key <$> l) then dedup py_str l else dedup py_str l ++ [c].
Proof.
  unfold dedup. rewrite fold_left_app. cbn [fold_left].
  pose proof (dedup_seen l) as Hseen.
  destruct (fold_left step l ([], ∅)) as [unique seen]. cbn [snd fst] in *. subst seen.
  cbn [dedup_step]. repeat case_decide; try done; set_solver.
Qed.

Lemma dedup_sublist l : dedup py_str l `sublist_of` l.
Proof.
  induction l as [|c l IH] using rev_ind; [done|].
  rewrite dedup_snoc. case_decide.
  - by apply sublist_inserts_r.
  - by apply sublist_app.
Qed.

Lemma dedup_keys l k : k ∈ key <$> dedup py_str l ↔ k ∈ key <$> l.
Proof.
  induction l as [|c l IH] using rev_ind; [done|].
  rewrite dedup_snoc, fmap_app, elem_of_app. case_decide as Hin.
  - rewrite IH. cbn. rewrite list_elem_of_singleton.
    split; [by left|]. intros [?| ->]; done.
  - by rewrite fmap_app, elem_of_app, IH.
Qed.

Lemma dedup_NoDup l : NoDup (key <$> dedup py_str l).
Proof.
  induction l as [|c l IH] using rev_ind; [constructor|].
  rewrite dedup_snoc. case_decide as Hin; [done|].
  rewrite fmap_app. apply NoDup_app. split; [done|]. split.
  - intros k Hk [->|Hk2]%elem_of_cons; [by apply Hin, dedup_keys|].
    by apply elem_of_nil in Hk2.
  - apply NoDup_singleton.
Qed.

(** Growing the input only appends to the output. *)
Lemma dedup_app l1 l2 : ∃ rest, dedup py_str (l1 ++ l2) = dedup py_str l1 ++ rest.
Proof.
  induction l2 as [|c l2 [rest IH]] using rev_ind.
  - exists []. by rewrite !app_nil_r.
  - rewrite app_assoc, dedup_snoc, IH. case_decide.
    + by exists rest.
    + exists (rest ++ [c]). by rewrite app_assoc.
Qed.

(** A record whose key did not occur before it is emitted, right after
    what the records before it gave. *)
Lemma dedup_first l1 c l2 :
  key c ∉ key <$> l1 →
  ∃ rest, dedup py_str (l1 ++ c :: l2) = dedup py_str l1 ++ c :: rest.
Proof.
  intros Hnew. destruct (dedup_app (l1 ++ [c]) l2) as [rest Hrest].
  exists rest. rewrite <- app_assoc in Hrest. cbn in Hrest.
  rewrite Hrest, dedup_snoc, decide_False by done. by rewrite <- app_assoc.
Qed.

(** A record whose key occurred before is dropped. *)
Lemma dedup_repeat l1 c l2 :
  key c ∈ key <$> l1 →
  ∃ rest, dedup py_str (l1 ++ c :: l2) = dedup py_str l1 ++ rest ∧
          dedup py_str (l1 ++ l2) = dedup py_str l1 ++ rest.
Proof.
  intros Hold. induction l2 as [|d l2 [rest [IH1 IH2]]] using rev_ind.
  - exists []. rewrite !app_nil_r, dedup_snoc, decide_True by done. done.
  - assert (l1 ++ c :: l2 ++ [d] = (l1 ++ c :: l2) ++ [d]) as ->
      by (by rewrite <- app_assoc).
    rewrite (app_assoc l1 l2 [d]), !dedup_snoc, IH1, IH2.
    assert (key d ∈ key <$> l1 ++ c :: l2 ↔ key d ∈ key <$> l1 ++ l2) as Hiff.
    { rewrite !fmap_app, fmap_cons, !elem_of_app, elem_of_cons.
      split; [|tauto]. intros [?|[ ->|?]]; tauto. }
    repeat case_decide; try tauto.
    + by exists rest.
    + exists (rest ++ [d]). by rewrite !app_assoc.
Qed.

End DedupFacts.

(** C4. The key of a record is its (field name, [str] of value) pairs in
    sorted order, sorted by field name; two records have the same key
    exactly when these pairs are the same up to order, so the order of the
    fields does not matter. The output keeps a record exactly when no record
    before it has its key, in the input's order, and no two output records
    share a key. *)
Theorem dedup_first_per_key (py_str : Value → string) (c1 c2 c : dict) (l l2 : list dict) :
  conn_key py_str c1 ≡ₚ str_items py_str c1 ∧
  StronglySorted Text.pair_le (conn_key py_str c1) ∧
  StronglySorted (fun p q => Text.leb p.1 q.1 = true) (conn_key py_str c1) ∧
  (conn_key py_str c1 = conn_key py_str c2 ↔ str_items py_str c1 ≡ₚ str_items py_str c2) ∧
  (c1 ≡ₚ c2 → conn_key py_str c1 = conn_key py_str c2) ∧
  dedup py_str (l ++ [c]) =
    (if decide (conn_key py_str c ∈ conn_key py_str <$> l)
     then dedup py_str l else dedup py_str l ++ [c]) ∧
  (conn_key py_str c ∉ conn_key py_str <$> l →
     ∃ rest, dedup py_str (l ++ c :: l2) = dedup py_str l ++ c :: rest) ∧
  (conn_key py_str c ∈ conn_key py_str <$> l →
     dedup py_str (l ++ c :: l2) = dedup py_str (l ++ l2)) ∧
  dedup py_str l `sublist_of` l ∧
  NoDup (conn_key py_str <$> dedup py_str l) ∧
  (∀ x, x ∈ l → ∃ y, y ∈ dedup py_str l ∧ conn_key py_str y = conn_key py_str x).
Proof.
  split; [apply conn_key_perm|]. split; [apply conn_key_sorted|].
  split; [apply conn_key_by_name|]. split; [apply conn_key_eq_iff|].
  split; [apply conn_key_reorder|]. split; [apply dedup_snoc|].
  split; [apply dedup_first|]. split.
  { intros Hold. destruct (dedup_repeat py_str l c l2 Hold) as (rest & H1 & H2).
    by rewrite H1, H2. }
  split; [apply dedup_sublist|]. split; [apply dedup_NoDup|].
  intros x Hx.
  assert (conn_key py_str x ∈ conn_key py_str <$> dedup py_str l) as Hk.
  { apply dedup_keys. by apply list_elem_of_fmap_2. }
  apply list_elem_of_fmap in Hk as (y & Hy & Hin). by exists y.
Qed.

Lemma dedup_first_per_key_witness :
  conn_key Sample.py_str [("a", VStr "1"); ("b", VStr "2")] =
  conn_key Sample.py_str [("b", VStr "2"); ("a", VStr "1")].
Proof.
  refine (proj1 (proj2 (proj2 (proj2 (proj2
    (dedup_first_per_key Sample.py_str
       [("a", VStr "1"); ("b", VStr "2")] [("b", VStr "2"); ("a", VStr "1")]
       [] [] [])))) ) _).
  apply perm_swap.
Defined.

(** The two examples of the specification: the same content in another
    field order is one entry, and three identical records are one. *)
Example dedup_examples (py_str : Value → string) (c : dict) :
  dedup py_str [[("a", VStr "1"); ("b", VStr "2")]; [("b", VStr "2"); ("a", VStr "1")]]
    = [[("a", VStr "1"); ("b", VStr "2")]] ∧
  dedup py_str [c; c; c] = [c].
Proof.
  split.
  - change [?x; ?y] with ([x] ++ [y]).
    rewrite dedup_snoc, decide_True; [done|].
    apply list_elem_of_singleton. apply conn_key_reorder, perm_swap.
  - change [c; c; c] with (([c] ++ [c]) ++ [c]).
    rewrite !dedup_snoc, !decide_True; [done| |]; set_solver.
Qed.

(** ** StalenessEvaluator *)

Lemma mem_spec k (c : dict) : Dict.mem k c = true ↔ k ∈ c.*1.
Proof.
  unfold Dict.mem. rewrite existsb_exists. split.
  - intros [x [Hx ->%String.eqb_eq]]. by apply list_elem_of_In.
  - intros Hk. exists k. split; [by apply list_elem_of_In|apply String.eqb_refl].
Qed.

Lemma mem_false k (c : dict) : Dict.mem k c = false ↔ k ∉ c.*1.
Proof. rewrite <- mem_spec. by destruct (Dict.mem k c). Qed.

Lemma first_field_absent (c : dict) fields :
  (∀ f, f ∈ fields → f ∉ c.*1) → first_field c fields = VNone.
Proof.
  induction fields as [|f fields IH]; intros Habs; [done|].
  cbn [first_field]. rewrite (proj2 (mem_false f c)) by (apply Habs; left).
  apply IH. intros g Hg. apply Habs. by right.
Qed.

Lemma first_field_first (c : dict) pre f post :
  (∀ g, g ∈ pre → g ∉ c.*1) → f ∈ c.*1 →
  first_field c (pre ++ f :: post) = Dict.get c f.
Proof.
  induction pre as [|g pre IH]; intros Habs Hf; cbn [first_field app].
  - by rewrite (proj2 (mem_spec f c)).
  - rewrite (proj2 (mem_false g c)) by (apply Habs; left).
    apply IH; [|done]. intros h Hh. apply Habs. by right.
Qed.

(** [int(age)] of a whole number of seconds is that number. *)
Lemma py_trunc_whole (T ts : Z) : py_trunc (inject_Z T - inject_Z ts) = T - ts.
Proof. unfold py_trunc. cbn. rewrite Z.quot_1_r. lia. Qed.

Section StaleFacts.

Variable int_of_text : string → option Z.
Variable strptime_timestamp : string → string → option Z.

Abbreviation parse := (parse_time_str int_of_text strptime_timestamp).
Abbreviation entry := (stale_entry int_of_text strptime_timestamp).
Abbreviation stale := (find_stale int_of_text strptime_timestamp).

Lemma try_fmts_None v fs :
  try_fmts strptime_timestamp v fs = None ↔
  ∀ f, f ∈ fs → try_fmt strptime_timestamp v f = None.
Proof.
  induction fs as [|f fs IH]; cbn [try_fmts].
  - split; [by intros _ ? ?%elem_of_nil|done].
  - destruct (try_fmt strptime_timestamp v f) eqn:Hf.
    + split; [done|]. intros H. rewrite H in Hf; [done|left].
    + rewrite IH. split.
      * intros H g [ ->|Hg]%elem_of_cons; auto.
      * intros H g Hg. apply H. by right.
Qed.

Lemma try_fmts_first v pre f post ts :
  (∀ g, g ∈ pre → try_fmt strptime_timestamp v g = None) →
  try_fmt strptime_timestamp v f = Some ts →
  try_fmts strptime_timestamp v (pre ++ f :: post) = Some ts.
Proof.
  induction pre as [|g pre IH]; intros Hpre Hf; cbn [try_fmts app].
  - by rewrite Hf.
  - rewrite Hpre by left. apply IH; [|done]. intros h Hh. apply Hpre. by right.
Qed.

Lemma parse_time_str_int v n :
  v ≠ VNone → py_int int_of_text v = Some n → parse v = Some n.
Proof. intros Hv Hn. unfold parse_time_str. rewrite Hn. by destruct v. Qed.

Lemma parse_time_str_fmts v :
  v ≠ VNone → py_int int_of_text v = None →
  parse v = try_fmts strptime_timestamp v fmts.
Proof. intros Hv Hn. unfold parse_time_str. rewrite Hn. by destruct v. Qed.

Lemma parse_time_str_None v :
  parse v = None ↔
  v = VNone ∨
  (py_int int_of_text v = None ∧ ∀ f, f ∈ fmts → try_fmt strptime_timestamp v f = None).
Proof.
  assert (v = VNone ∨ v ≠ VNone) as [->|Hv]
    by (destruct v; [by left|by right..]); [by split; [left|]|].
  destruct (py_int int_of_text v) as [n|] eqn:Hn.
  - rewrite (parse_time_str_int v n) by done.
    split; [done|]. by intros [?|[? _]].
  - rewrite parse_time_str_fmts, try_fmts_None by done.
    split; [by right|]. by intros [?|[_ ?]].
Qed.

(** The loop of lines 163-178 decides each record on its own and keeps
    the order. *)
Lemma find_stale_omap now threshold l :
  stale now threshold l = omap (entry now threshold) l.
Proof.
  unfold find_stale. rewrite <- (app_nil_l (omap _ l)). generalize (@nil (dict * Z * Z)).
  induction l as [|c l IH]; intros acc; cbn [fold_left omap list_omap].
  - by rewrite app_nil_r.
  - rewrite IH. unfold stale_step, stale_entry.
    destruct (parse_time_str _ _ _) as [ts|]; [|done].
    destruct (Qle_bool _ _); [|done]. by rewrite <- app_assoc.
Qed.

Lemma stale_entry_Some now threshold c x :
  entry now threshold c = Some x →
  x.1.1 = c ∧ parse (first_field c time_fields) = Some x.1.2 ∧
  x.2 = py_trunc (now - inject_Z x.1.2) ∧
  (inject_Z threshold <= now - inject_Z x.1.2)%Q.
Proof.
  unfold stale_entry. destruct (parse_time_str _ _ _) as [ts|]; [|done].
  destruct (Qle_bool _ _) eqn:Hle; [|done].
  intros [= <-]. by apply Qle_bool_iff in Hle.
Qed.

Lemma find_stale_elem now threshold l x :
  x ∈ stale now threshold l ↔ x.1.1 ∈ l ∧ entry now threshold x.1.1 = Some x.
Proof.
  rewrite find_stale_omap, list_elem_of_omap. split.
  - intros (c & Hc & He). destruct (stale_entry_Some _ _ _ _ He) as [<- _]. done.
  - intros [Hc He]. by exists x.1.1.
Qed.

Lemma find_stale_order now threshold l :
  (fun x : dict * Z * Z => x.1.1) <$> stale now threshold l `sublist_of` l.
Proof.
  rewrite find_stale_omap. induction l as [|c l IH]; [done|].
  cbn [omap list_omap]. destruct (entry now threshold c) as [x|] eqn:He.
  - destruct (stale_entry_Some _ _ _ _ He) as [<- _]. cbn. by apply sublist_skip.
  - by apply sublist_cons.
Qed.

(** A record without a parsed timestamp is in no stale set. *)
Lemma unparsed_skipped now threshold l c ts age :
  parse (first_field c time_fields) = None →
  (c, ts, age) ∉ stale now threshold l.
Proof.
  intros Hnone [_ He]%find_stale_elem. cbn in He.
  unfold stale_entry in He. by rewrite Hnone in He.
Qed.

End StaleFacts.

(** The example of the specification over the exact clock, for any time
    [T] and any parsers. *)
Example stale_example (int_of_text : string → option Z)
    (strptime_timestamp : string → string → option Z) (T : Z) :
  find_stale int_of_text strptime_timestamp (inject_Z T) 3600
    [[("LastActivity", VInt (T - 100000))]] =
  [([("LastActivity", VInt (T - 100000))], T - 100000, 100000)].
Proof.
  rewrite find_stale_omap. cbn [omap list_omap]. unfold stale_entry.
  change (first_field _ time_fields) with (VInt (T - 100000)).
  cbn [parse_time_str py_int]. rewrite py_trunc_whole.
  assert (Qle_bool (inject_Z 3600) (inject_Z T - inject_Z (T - 100000)) = true) as ->.
  { apply Qle_bool_iff. unfold Qle. cbn. lia. }
  repeat f_equal. lia.
Qed.

(** C6. The timestamp is the value of the first of [LastActivity],
    [LastActive], [LastSeen], [Time], [Timestamp] that the record has. It is
    parsed by [int] first and then by the formats in their order. A record
    that has none of the fields, or whose value parses in neither way, is in
    no stale set. *)
Theorem unparsed_never_stale (int_of_text : string → option Z)
    (strptime_timestamp : string → string → option Z) (c : dict) :
  (∀ pre f post, time_fields = pre ++ f :: post →
     (∀ g, g ∈ pre → g ∉ c.*1) → f ∈ c.*1 →
     first_field c time_fields = Dict.get c f) ∧
  ((∀ f, f ∈ time_fields → f ∉ c.*1) →
     first_field c time_fields = VNone ∧
     parse_time_str int_of_text strptime_timestamp (first_field c time_fields) = None) ∧
  (∀ v, parse_time_str int_of_text strptime_timestamp v = None ↔
     v = VNone ∨
     (py_int int_of_text v = None ∧
      ∀ f, f ∈ fmts → try_fmt strptime_timestamp v f = None)) ∧
  (∀ v n, v ≠ VNone → py_int int_of_text v = Some n →
     parse_time_str int_of_text strptime_timestamp v = Some n) ∧
  (∀ v pre f post ts, v ≠ VNone → py_int int_of_text v = None →
     fmts = pre ++ f :: post →
     (∀ g, g ∈ pre → try_fmt strptime_timestamp v g = None) →
     try_fmt strptime_timestamp v f = Some ts →
     parse_time_str int_of_text strptime_timestamp v = Some ts) ∧
  (parse_time_str int_of_text strptime_timestamp (first_field c time_fields) = None →
     ∀ now threshold l ts age,
       (c, ts, age) ∉ find_stale int_of_text strptime_timestamp now threshold l).
Proof.
  split; [|split; [|split; [|split; [|split]]]].
  - intros pre f post Htf Hpre Hf. rewrite Htf. by apply first_field_first.
  - intros Habs. rewrite first_field_absent by done. done.
  - apply parse_time_str_None.
  - apply parse_time_str_int.
  - intros v pre f post ts Hv Hn Hfm Hpre Hf.
    rewrite parse_time_str_fmts, Hfm by done. by apply try_fmts_first.
  - intros Hnone now threshold l ts age. by apply unparsed_skipped.
Qed.

Lemma unparsed_never_stale_witness :
  ([("LastActivity", VStr "not-a-date")], 0, 0)
    ∉ find_stale Sample.int_of_text Sample.strptime_timestamp (inject_Z 101000) 3600
        [[("LastActivity", VStr "not-a-date")]].
Proof.
  refine (proj2 (proj2 (proj2 (proj2 (proj2
    (unparsed_never_stale Sample.int_of_text Sample.strptime_timestamp
       [("LastActivity", VStr "not-a-date")])))))
    _ (inject_Z 101000) 3600 [[("LastActivity", VStr "not-a-date")]] 0 0).
  reflexivity.
Defined.

(** ** Field names are matched exactly *)

Lemma lookup_mem k v (c : dict) : Dict.lookup k c = Some v → k ∈ c.*1.
Proof.
  induction c as [|[k' v'] c IH]; cbn [Dict.lookup]; [done|].
  destruct (String.eqb_spec k k') as [->|Hne]; intros Hl.
  - cbn. left.
  - cbn. right. by apply IH.
Qed.

Lemma lookup_other f k v (c1 c2 : dict) :
  f ≠ k → Dict.lookup f (c1 ++ (k, v) :: c2) = Dict.lookup f (c1 ++ c2).
Proof.
  intros Hne. induction c1 as [|[k' v'] c1 IH]; cbn [Dict.lookup app].
  - by rewrite (proj2 (String.eqb_neq f k)).
  - by rewrite IH.
Qed.

Lemma mem_other f k v (c1 c2 : dict) :
  f ≠ k → Dict.mem f (c1 ++ (k, v) :: c2) = Dict.mem f (c1 ++ c2).
Proof.
  intros Hne. unfold Dict.mem. rewrite !map_app, !existsb_app. cbn.
  by rewrite (proj2 (String.eqb_neq f k)).
Qed.

Lemma get_absent k (c : dict) : k ∉ c.*1 → Dict.get c k = VNone.
Proof.
  intros Hk. unfold Dict.get. destruct (Dict.lookup k c) as [v|] eqn:Hl; [|done].
  destruct Hk. by eapply lookup_mem.
Qed.

(** A field whose name is not on the list has no say in the timestamp. *)
Lemma first_field_ignores k v (c1 c2 : dict) fields :
  k ∉ fields →
  first_field (c1 ++ (k, v) :: c2) fields = first_field (c1 ++ c2) fields.
Proof.
  induction fields as [|f fields IH]; intros Hk; [done|].
  apply not_elem_of_cons in Hk as [Hne Hk].
  cbn [first_field]. unfold Dict.get.
  rewrite mem_other, lookup_other, IH by done. done.
Qed.

(** C10. Field names are compared exactly. A dict all of whose keys are
    hint keys in another letter case has no hint key: no walk returns it as
    a record. A field that is a timestamp field name in another letter case
    never changes the timestamp that is resolved, and a record with only
    such fields is in no stale set. Service names, in contrast, are matched
    after lowering both sides. *)
Theorem field_names_case_sensitive (int_of_text : string → option Z)
    (strptime_timestamp : string → string → option Z) (items : dict) :
  (∀ k, k ∈ items.*1 → case_variant_of_hint k) →
  has_hint_key items = false ∧
  (∀ t, (items ∉ find_conn_nodes t) ∧ (items ∉ find_conn_nodes2 t)) ∧
  (∀ c1 c2 k v, case_variant_of_time_field k →
     first_field (c1 ++ (k, v) :: c2) time_fields = first_field (c1 ++ c2) time_fields) ∧
  ((∀ k, k ∈ items.*1 → case_variant_of_time_field k) →
     first_field items time_fields = VNone ∧
     ∀ now threshold l ts age,
       (items, ts, age) ∉ find_stale int_of_text strptime_timestamp now threshold l) ∧
  (∀ f f' n n', Text.lower f = Text.lower f' → Text.lower n = Text.lower n' →
     matches f n = matches f' n').
Proof.
  intros Hvar.
  assert (has_hint_key items = false) as Hno.
  { destruct (has_hint_key items) eqn:Hh; [|done].
    apply has_hint_key_spec in Hh as (k & Hk & Hhint).
    by destruct (Hvar k Hk) as [Hnot _]. }
  split; [done|]. split; [|split; [|split]].
  - intros t. change find_conn_nodes2 with find_conn_nodes.
    assert (items ∉ find_conn_nodes t); [|done].
    intros Hin%find_conn_nodes_hint. congruence.
  - intros c1 c2 k v [Hk _]. by apply first_field_ignores.
  - intros Htime.
    assert (first_field items time_fields = VNone) as Hnone.
    { apply first_field_absent. intros f Hf Hin.
      by destruct (Htime f Hin) as [Hnot _]. }
    split; [done|]. intros now threshold l ts age.
    apply unparsed_skipped. by rewrite Hnone.
  - intros f f' n n' Hf Hn. unfold matches. by rewrite Hf, Hn.
Qed.

Lemma field_names_case_sensitive_witness :
  has_hint_key Sample.conn_lower = false ∧
  (∀ t, (Sample.conn_lower ∉ find_conn_nodes t) ∧ (Sample.conn_lower ∉ find_conn_nodes2 t)).
Proof.
  assert (∀ k, k ∈ Sample.conn_lower.*1 → case_variant_of_hint k) as Hvar.
  { intros k Hk. cbn in Hk.
    apply elem_of_cons in Hk as [->|Hk];
      [|apply list_elem_of_singleton in Hk as ->].
    - split; [by refine (bool_decide_unpack _ _)|].
      exists "RemoteHost". split; [by refine (bool_decide_unpack _ _)|reflexivity].
    - split; [by refine (bool_decide_unpack _ _)|].
      exists "LastActivity". split; [by refine (bool_decide_unpack _ _)|reflexivity]. }
  pose proof (field_names_case_sensitive Sample.int_of_text Sample.strptime_timestamp
                Sample.conn_lower Hvar) as (H1 & H2 & _).
  exact (conj H1 H2).
Defined.

(** Lower-case field names on the device side: nothing is extracted and
    nothing is stale, while a lower-case fragment still finds the service. *)
Example lower_case_fields :
  find_conn_nodes (VDict [("ConnectionList", VList [VDict Sample.conn_lower])]) = [] ∧
  find_stale Sample.int_of_text Sample.strptime_timestamp (inject_Z 101000) 3600
    [Sample.conn_lower] = [] ∧
  try_service Sample.FritzService ["WANIPConnection1"] ["wanipconnection"] = Some Sample.svc.
Proof. repeat split; vm_compute; reflexivity. Qed.

(** ** ActionCollector *)

Section CollectorFacts.

Context {World : Type}.
Variable call_action : Service → string → dict → World → option Value * World.

Abbreviation run_invoke := (invoke call_action).
Abbreviation run_collect := (collect call_action).

Lemma append_all_app (connections found : list dict) :
  append_all connections found = connections ++ found.
Proof.
  unfold append_all. revert connections.
  induction found as [|f found IH]; intros cs; cbn [fold_left].
  - by rewrite app_nil_r.
  - by rewrite IH, <- app_assoc.
Qed.

Lemma invoke_eq svc action args (st : Run World) :
  run_invoke svc action args st =
  ((call_action svc action args (world st)).1,
   {| world := (call_action svc action args (world st)).2;
      calls := calls st ++
        [{| c_action := action; c_args := args;
            c_ok := bool_decide (is_Some (call_action svc action args (world st)).1) |}];
      printed := printed st |}).
Proof. unfold invoke. by destruct (call_action svc action args (world st)). Qed.

(** Declared or not, a candidate is called, without arguments; what it
    returns is walked and appended. *)
Lemma collect_cons svc act rest connections (st : Run World) :
  run_collect svc (act :: rest) connections st =
  match run_invoke svc act [] st with
  | (None, st1) => run_collect svc rest connections st1
  | (Some res, st1) => run_collect svc rest (connections ++ find_conn_nodes res) st1
  end.
Proof.
  cbn [collect]. change find_conn_nodes2 with find_conn_nodes.
  destruct (declares svc act), (run_invoke svc act [] st) as [[res|] st1];
    by rewrite ?append_all_app.
Qed.

Lemma collect_app svc acts1 acts2 connections (st : Run World) :
  run_collect svc (acts1 ++ acts2) connections st =
  run_collect svc acts2 (run_collect svc acts1 connections st).1
    (run_collect svc acts1 connections st).2.
Proof.
  revert connections st. induction acts1 as [|a acts1 IH]; intros cs st; [done|].
  rewrite <- app_comm_cons, !collect_cons.
  destruct (run_invoke svc a [] st) as [[res|] st1]; apply IH.
Qed.

Lemma collect_trace svc acts connections (st : Run World) :
  ∃ oks extra,
    length oks = length acts ∧
    calls (run_collect svc acts connections st).2 =
      calls st ++ zip_with read_call acts oks ∧
    printed (run_collect svc acts connections st).2 = printed st ∧
    (run_collect svc acts connections st).1 = connections ++ extra.
Proof.
  revert connections st. induction acts as [|a acts IH]; intros cs st.
  - exists [], []. by rewrite !app_nil_r.
  - rewrite collect_cons, invoke_eq.
    destruct (call_action svc a [] (world st)) as [[res|] w] eqn:Hcall; cbn [fst snd].
    + destruct (IH (cs ++ find_conn_nodes res)
                  {| world := w;
                     calls := calls st ++ [{| c_action := a; c_args := [];
                                              c_ok := bool_decide (is_Some (Some res)) |}];
                     printed := printed st |}) as (oks & extra & Hlen & Hc & Hp & Hx).
      exists (bool_decide (is_Some (Some res)) :: oks), (find_conn_nodes res ++ extra).
      cbn [length zip_with]. rewrite Hc, Hp, Hx. cbn [calls printed].
      by rewrite Hlen, <- !app_assoc.
    + destruct (IH cs
                  {| world := w;
                     calls := calls st ++ [{| c_action := a; c_args := [];
                                              c_ok := bool_decide (is_Some (@None Value)) |}];
                     printed := printed st |}) as (oks & extra & Hlen & Hc & Hp & Hx).
      exists (bool_decide (is_Some (@None Value)) :: oks), extra.
      cbn [length zip_with]. rewrite Hc, Hp, Hx. cbn [calls printed].
      by rewrite Hlen, <- !app_assoc.
Qed.

(** On a device that answers the reads without changing, the result is
    the concatenation, in candidate order, of what each answer holds. *)
Lemma collect_steady svc acts connections (st : Run World) (resp : string → option Value) :
  (∀ a, a ∈ acts → call_action svc a [] (world st) = (resp a, world st)) →
  (run_collect svc acts connections st).1 =
    connections ++ (acts ≫= fun a => from_option find_conn_nodes [] (resp a)) ∧
  world (run_collect svc acts connections st).2 = world st.
Proof.
  revert connections st. induction acts as [|a acts IH]; intros cs st Hresp.
  - by rewrite app_nil_r.
  - rewrite collect_cons, invoke_eq, (Hresp a) by left. cbn [fst snd].
    rewrite bind_cons.
    destruct (resp a) as [res|]; cbn [from_option].
    + destruct (IH (cs ++ find_conn_nodes res)
                  {| world := world st;
                     calls := calls st ++ [{| c_action := a; c_args := [];
                                              c_ok := bool_decide (is_Some (Some res)) |}];
                     printed := printed st |}) as [H1 H2].
      { intros b Hb. apply Hresp. by right. }
      rewrite H1, H2. by rewrite <- app_assoc.
    + destruct (IH cs
                  {| world := world st;
                     calls := calls st ++ [{| c_action := a; c_args := [];
                                              c_ok := bool_decide (is_Some (@None Value)) |}];
                     printed := printed st |}) as [H1 H2].
      { intros b Hb. apply Hresp. by right. }
      by rewrite H1, H2.
Qed.

End CollectorFacts.

(** C9. Every candidate read action is called once, in the order of the
    list and without arguments, whether the service declares it or not; a
    call that raises is skipped and the loop goes on; what the successful
    calls return is walked and appended to the result in that order, and
    nothing is ever taken out, duplicates included. *)
Theorem collector_union {World : Type}
    (call_action : Service → string → dict → World → option Value * World)
    (svc : Service) (acts : list string) (a : string) (connections : list dict)
    (st : Run World) :
  (∃ oks extra,
     length oks = length acts ∧
     calls (collect call_action svc acts connections st).2 =
       calls st ++ zip_with read_call acts oks ∧
     printed (collect call_action svc acts connections st).2 = printed st ∧
     (collect call_action svc acts connections st).1 = connections ++ extra) ∧
  collect call_action svc (acts ++ [a]) connections st =
    (match invoke call_action svc a [] (collect call_action svc acts connections st).2 with
     | (Some res, st2) =>
         ((collect call_action svc acts connections st).1 ++ find_conn_nodes res, st2)
     | (None, st2) => ((collect call_action svc acts connections st).1, st2)
     end) ∧
  (∀ resp : string → option Value,
     (∀ b, b ∈ acts → call_action svc b [] (world st) = (resp b, world st)) →
     (collect call_action svc acts connections st).1 =
       connections ++ (acts ≫= fun b => from_option find_conn_nodes [] (resp b))).
Proof.
  split; [apply collect_trace|]. split.
  - rewrite collect_app, collect_cons.
    by destruct (invoke call_action svc a [] _) as [[res|] st2].
  - intros resp Hresp. by apply collect_steady.
Qed.

Lemma collector_union_witness :
  (collect Sample.call_action Sample.svc actions_to_try []
     {| world := true; calls := []; printed := [] |}).1 =
  [] ++ (actions_to_try ≫= fun b =>
           from_option find_conn_nodes []
             (Sample.call_action Sample.svc b [] true).1).
Proof.
  refine (proj2 (proj2 (collector_union Sample.call_action Sample.svc actions_to_try
    "GetConnectionList" [] {| world := true; calls := []; printed := [] |}))
    (fun b => (Sample.call_action Sample.svc b [] true).1) _).
  intros b Hb. cbn [world]. unfold Sample.call_action.
  destruct (String.eqb b "GetConnectionList"); [done|].
  by destruct (String.eqb b "DeleteConnection").
Defined.

(** Two read actions that return the same list: both copies are kept. *)
Example collector_keeps_duplicates :
  (collect (fun _ _ _ (w : unit) => (Some Sample.raw, w)) Sample.svc
     ["GetActiveConnections"; "GetConnectionList"] []
     {| world := tt; calls := []; printed := [] |}).1 = [Sample.conn1; Sample.conn1].
Proof. vm_compute. reflexivity. Qed.

(** ** ConnectionTerminator *)

(** With an identifier, the arguments are the identifier under every one of
    [ConnectionID], [ID], [Id] that the action declares, and under
    [ConnectionID] when it declares none of them. *)
Lemma build_args_connid svc action connid remote port :
  truthy connid = true →
  build_args svc action connid remote port =
  match declared_id_params svc action with
  | [] => [("ConnectionID", connid)]
  | ks => (fun k => (k, connid)) <$> ks
  end.
Proof.
  intros Ht. unfold build_args, declared_id_params, id_params. rewrite Ht.
  cbn [fold_left]. rewrite !filter_cons, filter_nil.
  destruct (existsb (String.eqb "ConnectionID") _),
           (existsb (String.eqb "ID") _),
           (existsb (String.eqb "Id") _); reflexivity.
Qed.

(** Without one, they are the remote host and port that are there. *)
Lemma build_args_endpoint svc action connid remote port :
  truthy connid = false →
  build_args svc action connid remote port =
  (if truthy remote then [("RemoteHost", remote)] else []) ++
  (if truthy port then [("RemotePort", port)] else []).
Proof.
  intros Ht. unfold build_args. rewrite Ht.
  by destruct (truthy remote), (truthy port).
Qed.

(** [a or b or c]: the first truthy value, else the last one. *)
Lemma resolve_connid_spec c :
  resolve_connid c =
  match filter (fun v => truthy v = true)
          [Dict.get c "ConnectionID"; Dict.get c "Id"; Dict.get c "ID"] with
  | v :: _ => v
  | [] => Dict.get c "ID"
  end.
Proof.
  unfold resolve_connid.
  generalize (Dict.get c "ConnectionID") (Dict.get c "Id") (Dict.get c "ID").
  intros a b d. unfold py_or. rewrite !filter_cons, filter_nil.
  destruct (truthy a) eqn:Ha; cbn; rewrite ?Ha; [done|].
  destruct (truthy b) eqn:Hb; cbn; rewrite ?Hb; [done|].
  by destruct (truthy d) eqn:Hd.
Qed.

Section TerminatorFacts.

Context {World : Type}.
Variable call_action : Service → string → dict → World → option Value * World.
Variable fromtimestamp : Z → option string.

Abbreviation run_try_close := (try_close call_action).
Abbreviation run_terminate := (terminate call_action fromtimestamp).

(** What the loop over the close actions leaves behind: the declared
    candidates are called in ranked order; on the first call that comes
    back the loop stops; if none does, all of them were called. *)
Lemma try_close_trace svc todo connid remote port (st : Run World) :
  if (run_try_close svc todo connid remote port st).1 then
    ∃ init a post,
      declared_among svc todo = init ++ a :: post ∧
      calls (run_try_close svc todo connid remote port st).2 =
        calls st ++ (close_call svc connid remote port false <$> init)
                 ++ [close_call svc connid remote port true a] ∧
      printed (run_try_close svc todo connid remote port st).2 =
        printed st ++ [Executed a]
  else
    calls (run_try_close svc todo connid remote port st).2 =
      calls st ++ (close_call svc connid remote port false <$> declared_among svc todo) ∧
    printed (run_try_close svc todo connid remote port st).2 = printed st.
Proof.
  revert st. induction todo as [|action rest IH]; intros st.
  - cbn. by rewrite app_nil_r.
  - cbn [try_close]. unfold declared_among. rewrite filter_cons.
    destruct (declares svc action) eqn:Hd.
    + rewrite decide_True by done. rewrite invoke_eq.
      destruct (call_action svc action _ (world st)) as [[res|] w] eqn:Hcall;
        cbn [fst snd].
      * exists [], action, (declared_among svc rest). by cbn.
      * match goal with |- context [run_try_close _ _ _ _ _ ?s] => specialize (IH s) end.
        destruct (run_try_close svc rest connid remote port _) as [[|] st2];
          cbn [fst snd] in *.
        -- destruct IH as (init & a & post & Hdecl & Hcalls & Hprinted).
           exists (action :: init), a, post. fold (declared_among svc rest).
           rewrite Hdecl, Hcalls, Hprinted. cbn. by rewrite <- !app_assoc.
        -- destruct IH as [Hcalls Hprinted].
           rewrite Hcalls, Hprinted. cbn. by rewrite <- !app_assoc.
    + rewrite decide_False by done. apply IH.
Qed.

(** One round of the live loop: whatever the close attempts gave, the
    loop goes on with the next connection. *)
Lemma terminate_live_step svc c ts age rest last (st : Run World) :
  fromtimestamp ts = Some last →
  run_terminate false svc ((c, ts, age) :: rest) st =
  run_terminate false svc rest
    (let r := run_try_close svc close_actions (resolve_connid c) (resolve_remote c)
                (resolve_port c)
                (print (StaleLine (resolve_remote c) (resolve_port c) (resolve_connid c)
                          last age) st) in
     if r.1 then r.2 else print CouldNotClose r.2).
Proof.
  intros Hts. cbn [terminate]. rewrite Hts. cbn [negb].
  by destruct (run_try_close _ _ _ _ _ _) as [[|] st2].
Qed.

Lemma try_close_printed svc todo connid remote port (st : Run World) :
  ∃ out, printed (let r := run_try_close svc todo connid remote port st in
                  if r.1 then r.2 else print CouldNotClose r.2) = printed st ++ out ∧
         length (filter (fun o => is_stale_line o = true) out) = 0%nat ∧
         length (filter (fun o => is_outcome o = true) out) = 1%nat.
Proof.
  pose proof (try_close_trace svc todo connid remote port st) as H.
  destruct (run_try_close svc todo connid remote port st) as [[|] st2]; cbn [fst snd] in *.
  - destruct H as (init & a & post & _ & _ & Hp). exists [Executed a]. by rewrite Hp.
  - destruct H as [_ Hp]. exists [CouldNotClose]. cbn. by rewrite Hp.
Qed.

(** The live loop runs to its end when every line can be written, and
    prints one line and one outcome per connection. *)
Lemma terminate_live_total svc l (st : Run World) :
  Forall (renderable fromtimestamp) l →
  (run_terminate false svc l st).1 = Returned ∧
  ∃ out, printed (run_terminate false svc l st).2 = printed st ++ out ∧
         length (filter (fun o => is_stale_line o = true) out) = length l ∧
         length (filter (fun o => is_outcome o = true) out) = length l.
Proof.
  intros Hr. revert st. induction Hr as [|[[c ts] age] l [last Hlast] _ IH]; intros st.
  - split; [done|]. exists []. by rewrite app_nil_r.
  - cbn [fst snd] in Hlast. rewrite (terminate_live_step _ _ _ _ _ last) by done.
    match goal with |- context [run_terminate false svc l ?s] =>
      destruct (IH s) as (Hexit & out & Hp & Hs & Ho) end.
    split; [done|].
    destruct (try_close_printed svc close_actions (resolve_connid c) (resolve_remote c)
                (resolve_port c)
                (print (StaleLine (resolve_remote c) (resolve_port c) (resolve_connid c)
                          last age) st)) as (out1 & Hp1 & Hs1 & Ho1).
    exists (StaleLine (resolve_remote c) (resolve_port c) (resolve_connid c) last age
              :: out1 ++ out).
    rewrite Hp, Hp1. cbn [print printed].
    rewrite !filter_cons. cbn [is_stale_line is_outcome].
    rewrite decide_True, decide_False by done. cbn [length].
    rewrite !filter_app, !length_app, Hs, Ho, Hs1, Ho1. by rewrite <- !app_assoc.
Qed.

(** The dry loop: the device and the log of calls stay as they are, and
    what is printed is the line of each connection it got to. *)
Lemma terminate_dry svc l (st : Run World) :
  calls (run_terminate true svc l st).2 = calls st ∧
  world (run_terminate true svc l st).2 = world st ∧
  ∃ n, printed (run_terminate true svc l st).2 =
         printed st ++ (stale_line fromtimestamp <$> take n l).
Proof.
  revert st. induction l as [|[[c ts] age] l IH]; intros st.
  - repeat split; try done. exists 0%nat. by rewrite app_nil_r.
  - cbn [terminate negb]. destruct (fromtimestamp ts) as [last|] eqn:Hts.
    + match goal with |- context [run_terminate true svc l ?s] =>
        destruct (IH s) as (Hc & Hw & n & Hp) end.
      repeat split; try done. exists (S n). rewrite Hp. cbn [print printed take fmap list_fmap].
      unfold stale_line at 2. cbn [fst snd]. rewrite Hts. cbn [default].
      by rewrite <- app_assoc.
    + repeat split; try done. exists 0%nat. by rewrite app_nil_r.
Qed.

Lemma terminate_dry_total svc l (st : Run World) :
  Forall (renderable fromtimestamp) l →
  (run_terminate true svc l st).1 = Returned ∧
  printed (run_terminate true svc l st).2 = printed st ++ (stale_line fromtimestamp <$> l).
Proof.
  intros Hr. revert st. induction Hr as [|[[c ts] age] l [last Hlast] _ IH]; intros st.
  - by rewrite app_nil_r.
  - cbn [fst snd] in Hlast. cbn [terminate negb]. rewrite Hlast.
    match goal with |- context [run_terminate true svc l ?s] =>
      destruct (IH s) as [He Hp] end.
    split; [done|]. rewrite Hp. cbn [print printed fmap list_fmap].
    unfold stale_line at 2. cbn [fst snd]. rewrite Hlast. cbn [default].
    by rewrite <- app_assoc.
Qed.

End TerminatorFacts.

(** ** The whole run in dry mode *)

Section MainFacts.

Context {World : Type}.
Variable FritzService : string → option Service.
Variable call_action : Service → string → dict → World → option Value * World.
Variable py_str : Value → string.
Variable int_of_text : string → option Z.
Variable strptime_timestamp : string → string → option Z.
Variable fromtimestamp : Z → option string.

Lemma read_calls_zip acts oks :
  (∀ a, a ∈ acts → a ∈ actions_to_try) →
  Forall is_read_call (zip_with read_call acts oks).
Proof.
  revert oks. induction acts as [|a acts IH]; intros [|ok oks] Hin; cbn; try constructor.
  - split; [apply Hin; left|done].
  - apply IH. intros b Hb. apply Hin. by right.
Qed.

Lemma port_mapping_info_calls svc (st : Run World) :
  Forall is_read_call (calls st) →
  Forall is_read_call (calls (port_mapping_info call_action int_of_text svc st)).
Proof.
  intros Hst. unfold port_mapping_info.
  destruct (declares svc "GetPortMappingNumberOfEntries"); [|done].
  rewrite invoke_eq.
  assert (Forall is_read_call
            (calls st ++ [{| c_action := "GetPortMappingNumberOfEntries"; c_args := [];
                             c_ok := bool_decide (is_Some
                               (call_action svc "GetPortMappingNumberOfEntries" []
                                  (world st)).1) |}])) as Hall.
  { apply Forall_app. split; [done|]. constructor; [|constructor].
    split; [|done]. cbn. unfold actions_to_try. set_solver. }
  destruct (call_action svc "GetPortMappingNumberOfEntries" [] (world st)) as [[res|] w'];
    cbn [fst snd] in *; [|done].
  destruct res as [| | | |items|]; try done.
  destruct (Dict.lookup _ items) as [v|]; [|done].
  by destruct (py_int int_of_text v).
Qed.

(** In dry mode the only calls of a whole run are the reads. *)
Lemma main_dry_calls threshold fc now (w : World) :
  Forall is_read_call
    (calls (main FritzService call_action py_str int_of_text strptime_timestamp
              fromtimestamp true threshold fc now w).2).
Proof.
  unfold main. destruct fc as [services|]; [|constructor].
  destruct (try_service FritzService services candidates) as [svc|]; [|constructor].
  pose proof (collect_trace call_action svc actions_to_try []
                (print (UsedService (service_type svc))
                   {| world := w; calls := []; printed := [] |}))
    as (oks & extra & _ & Hcalls & _ & _).
  destruct (collect call_action svc actions_to_try [] _) as [connections st2].
  cbn [fst snd print calls app] in Hcalls.
  assert (Forall is_read_call (calls st2)) as Hst2.
  { rewrite Hcalls. by apply read_calls_zip. }
  destruct connections as [|c0 connections].
  { cbn [snd print calls]. by apply port_mapping_info_calls. }
  destruct (find_stale _ _ _ _ _) as [|x to_kill]; [done|].
  destruct (terminate_dry call_action fromtimestamp svc (x :: to_kill)
              (print (ToClose (length (x :: to_kill)) true) st2)) as (Hc & _ & _).
  by rewrite Hc.
Qed.

End MainFacts.

(** C1. With the dry-run flag set, the loop over the stale connections
    makes no remote call and leaves the device as it is, whatever the stale
    set and the service are; all it does is print the line of each
    connection, with its identifier and remote endpoint. A whole run in dry
    mode makes the read calls only. *)
Theorem dry_run_no_invocation {World : Type}
    (FritzService : string → option Service)
    (call_action : Service → string → dict → World → option Value * World)
    (py_str : Value → string) (int_of_text : string → option Z)
    (strptime_timestamp : string → string → option Z)
    (fromtimestamp : Z → option string)
    (svc : Service) (to_kill : list (dict * Z * Z)) (st : Run World)
    (threshold : Z) (fc : option (list string)) (now : Q) (w : World) :
  calls (terminate call_action fromtimestamp true svc to_kill st).2 = calls st ∧
  world (terminate call_action fromtimestamp true svc to_kill st).2 = world st ∧
  (∃ n, printed (terminate call_action fromtimestamp true svc to_kill st).2 =
          printed st ++ (stale_line fromtimestamp <$> take n to_kill)) ∧
  (Forall (renderable fromtimestamp) to_kill →
     (terminate call_action fromtimestamp true svc to_kill st).1 = Returned ∧
     printed (terminate call_action fromtimestamp true svc to_kill st).2 =
       printed st ++ (stale_line fromtimestamp <$> to_kill)) ∧
  Forall is_read_call
    (calls (main FritzService call_action py_str int_of_text strptime_timestamp
              fromtimestamp true threshold fc now w).2).
Proof.
  destruct (terminate_dry call_action fromtimestamp svc to_kill st) as (Hc & Hw & Hp).
  repeat split; try done.
  - by apply terminate_dry_total.
  - by apply terminate_dry_total.
  - apply main_dry_calls.
Qed.

Lemma dry_run_no_invocation_witness :
  (terminate Sample.call_action Sample.fromtimestamp true Sample.svc
     [(Sample.conn1, 1000, 100000)] {| world := true; calls := []; printed := [] |}).1
  = Returned.
Proof.
  refine (proj1 (proj1 (proj2 (proj2 (proj2
    (dry_run_no_invocation Sample.FritzService Sample.call_action Sample.py_str
       Sample.int_of_text Sample.strptime_timestamp Sample.fromtimestamp Sample.svc
       [(Sample.conn1, 1000, 100000)] {| world := true; calls := []; printed := [] |}
       3600 None (inject_Z 101000) true)))) _)).
  constructor; [|constructor]. by eexists.
Defined.

(** C7, as the code has it. The identifier is the first truthy value among
    the fields [ConnectionID], [Id], [ID] (a field that is missing, empty or
    zero is passed over). When there is one, each close call binds it to
    every one of [ConnectionID], [ID], [Id] that the action declares, and to
    [ConnectionID] alone when the action declares none of them, an empty
    schema included. *)
Theorem identifier_first_truthy {World : Type}
    (call_action : Service → string → dict → World → option Value * World)
    (svc : Service) (todo : list string) (c : dict) (st : Run World) :
  resolve_connid c =
    (match filter (fun v => truthy v = true)
             [Dict.get c "ConnectionID"; Dict.get c "Id"; Dict.get c "ID"] with
     | v :: _ => v
     | [] => Dict.get c "ID"
     end) ∧
  ((∀ k, k ∈ ["ConnectionID"; "Id"; "ID"] → k ∈ c.*1 → truthy (Dict.get c k) = true) →
     resolve_connid c = first_present_id c) ∧
  (truthy (resolve_connid c) = true →
     ∀ action,
       build_args svc action (resolve_connid c) (resolve_remote c) (resolve_port c) =
         (match declared_id_params svc action with
          | [] => [("ConnectionID", resolve_connid c)]
          | ks => (fun k => (k, resolve_connid c)) <$> ks
          end) ∧
       (∀ k, declared_id_params svc action = [k] →
          build_args svc action (resolve_connid c) (resolve_remote c) (resolve_port c) =
            bind_first_declared svc action (resolve_connid c)) ∧
       (params_of (actions svc) action = [] →
          build_args svc action (resolve_connid c) (resolve_remote c) (resolve_port c) =
            [("ConnectionID", resolve_connid c)])) ∧
  (∃ tried,
     calls (try_close call_action svc todo (resolve_connid c) (resolve_remote c)
              (resolve_port c) st).2 = calls st ++ tried ∧
     Forall (fun cl =>
               c_action cl ∈ declared_among svc todo ∧
               c_args cl = build_args svc (c_action cl) (resolve_connid c)
                             (resolve_remote c) (resolve_port c)) tried).
Proof.
  split; [apply resolve_connid_spec|]. split; [|split].
  - intros Ht. unfold first_present_id, resolve_connid, py_or. cbn [first_field].
    destruct (Dict.mem "ConnectionID" c) eqn:H1.
    { assert (truthy (Dict.get c "ConnectionID") = true) as T1
        by (apply Ht; [left|by apply mem_spec]).
      by rewrite T1, T1. }
    rewrite (get_absent "ConnectionID") by (by apply mem_false). cbn [truthy].
    destruct (Dict.mem "Id" c) eqn:H2.
    { assert (truthy (Dict.get c "Id") = true) as T2
        by (apply Ht; [right; left|by apply mem_spec]).
      by rewrite T2. }
    rewrite (get_absent "Id") by (by apply mem_false). cbn [truthy].
    destruct (Dict.mem "ID" c) eqn:H3; [done|].
    by rewrite (get_absent "ID") by (by apply mem_false).
  - intros Ht action. rewrite build_args_connid by done. split; [done|]. split.
    + intros k Hk. unfold bind_first_declared. fold (declared_id_params svc action).
      by rewrite Hk.
    + intros Hempty. unfold declared_id_params. by rewrite Hempty.
  - pose proof (try_close_trace call_action svc todo (resolve_connid c) (resolve_remote c)
                  (resolve_port c) st) as H.
    destruct (try_close call_action svc todo _ _ _ st) as [[|] st2]; cbn [fst snd] in *.
    + destruct H as (init & a & post & Hd & Hc & _). eexists. split; [exact Hc|].
      apply Forall_app. split.
      * apply Forall_fmap, Forall_forall. intros x Hx. cbn. split; [|done].
        rewrite Hd. apply elem_of_app. by left.
      * constructor; [|constructor]. cbn. split; [|done].
        rewrite Hd. apply elem_of_app. right. left.
    + destruct H as [Hc _]. eexists. split; [exact Hc|].
      apply Forall_fmap, Forall_forall. intros x Hx. by cbn.
Qed.

Lemma identifier_first_truthy_witness :
  build_args Sample.svc "DeleteConnection" (resolve_connid Sample.conn1)
    (resolve_remote Sample.conn1) (resolve_port Sample.conn1) =
  [("ConnectionID", VStr "1")].
Proof.
  exact (proj1 (proj1 (proj2 (proj2
    (identifier_first_truthy Sample.call_action Sample.svc close_actions Sample.conn1
       {| world := true; calls := []; printed := [] |}))) eq_refl "DeleteConnection")).
Defined.

(** C7 as stated fails twice: a [ConnectionID] that is the number 0 is
    passed over for the next field, and an action that declares two of the
    names gets the identifier under both. *)
Lemma identifier_not_first_present :
  resolve_connid Sample.conn_zero ≠ first_present_id Sample.conn_zero ∧
  build_args Sample.svc_two_names "DeleteConnection" (resolve_connid Sample.conn_zero)
    (resolve_remote Sample.conn_zero) (resolve_port Sample.conn_zero) ≠
  bind_first_declared Sample.svc_two_names "DeleteConnection"
    (resolve_connid Sample.conn_zero).
Proof. split; vm_compute; discriminate. Qed.

(** ** The end-to-end example of the specification

    One connection with identifier 1, last active at 1000, seen at 101000
    with a threshold of 3600. *)
Example end_to_end_dry :
  main Sample.FritzService Sample.call_action Sample.py_str Sample.int_of_text
    Sample.strptime_timestamp Sample.fromtimestamp true 3600
    (Some ["WANIPConnection1"]) (inject_Z 101000) true =
  (Returned,
   {| world := true;
      calls := zip_with read_call actions_to_try [false; false; true; false; false];
      printed :=
        [UsedService "urn:dslforum-org:service:WANIPConnection:1";
         ToClose 1 true;
         StaleLine (VStr "1.2.3.4") (VStr "80") (VStr "1") "1000" 100000] |}).
Proof. vm_compute. reflexivity. Qed.

Example end_to_end_live :
  main Sample.FritzService Sample.call_action Sample.py_str Sample.int_of_text
    Sample.strptime_timestamp Sample.fromtimestamp false 3600
    (Some ["WANIPConnection1"]) (inject_Z 101000) true =
  (Returned,
   {| world := false;
      calls := zip_with read_call actions_to_try [false; false; true; false; false]
               ++ [{| c_action := "DeleteConnection";
                      c_args := [("ConnectionID", VStr "1")];
                      c_ok := true |}];
      printed :=
        [UsedService "urn:dslforum-org:service:WANIPConnection:1";
         ToClose 1 false;
         StaleLine (VStr "1.2.3.4") (VStr "80") (VStr "1") "1000" 100000;
         Executed "DeleteConnection"] |}).
Proof. vm_compute. reflexivity. Qed.

(** * Further properties of the script *)

(** ** Service matching *)

Lemma lower_ascii_idem c : Text.lower_ascii (Text.lower_ascii c) = Text.lower_ascii c.
Proof.
  unfold Text.lower_ascii at 2.
  destruct ((65 <=? N_of_ascii c) && (N_of_ascii c <=? 90))%N eqn:Hup; [|done].
  apply andb_true_iff in Hup as [H1%N.leb_le H2%N.leb_le].
  unfold Text.lower_ascii. rewrite N_ascii_embedding by lia.
  assert ((N_of_ascii c + 32 <=? 90)%N = false) as -> by (apply N.leb_gt; lia).
  assert ((65 <=? N_of_ascii c)%N = true) as -> by (by apply N.leb_le).
  assert ((N_of_ascii c <=? 90)%N = true) as -> by (by apply N.leb_le).
  by rewrite andb_false_r.
Qed.

Lemma lower_idem s : Text.lower (Text.lower s) = Text.lower s.
Proof. induction s as [|c s IH]; [done|]. cbn. by rewrite lower_ascii_idem, IH. Qed.

Lemma starts_with_refl s : Text.starts_with s s = true.
Proof. induction s as [|c s IH]; [done|]. cbn. by rewrite Ascii.eqb_refl. Qed.

Lemma contains_refl s : Text.contains s s = true.
Proof. destruct s; cbn; [done|]. by rewrite Ascii.eqb_refl, starts_with_refl. Qed.

Lemma contains_empty s : Text.contains s "" = true.
Proof. by destruct s. Qed.

(** The test of line 29 does not see the letter case of either side; the
    empty fragment is found in every service name, and a full service name
    finds itself. *)
Theorem matching_ignores_case (f n : string) :
  matches (Text.lower f) n = matches f n ∧
  matches f (Text.lower n) = matches f n ∧
  matches "" n = true ∧
  matches n n = true.
Proof.
  unfold matches. rewrite !lower_idem. repeat split.
  - apply contains_empty.
  - apply contains_refl.
Qed.

(** A handle that [try_service] returns was built from an exposed name that
    one of the fragments matches. *)
Theorem resolver_sound (FritzService : string → option Service)
    (S F : list string) (svc : Service) :
  try_service FritzService S F = Some svc →
  ∃ f n, f ∈ F ∧ n ∈ S ∧ matches f n = true ∧ FritzService n = Some svc.
Proof.
  rewrite try_service_spec. intros Hh%head_Some_elem_of.
  apply list_elem_of_omap in Hh as (n & Hn & Hsvc).
  apply list_elem_of_bind in Hn as (f & Hn & Hf).
  apply list_elem_of_filter in Hn as [Hm Hn]. by exists f, n.
Qed.

Lemma resolver_sound_witness :
  ∃ f n, f ∈ candidates ∧ n ∈ ["DeviceInfo1"; "WANIPConnection1"] ∧
         matches f n = true ∧ Sample.FritzService n = Some Sample.svc.
Proof.
  exact (resolver_sound Sample.FritzService ["DeviceInfo1"; "WANIPConnection1"]
           candidates Sample.svc eq_refl).
Defined.

(** An empty fragment takes the first exposed service whose handle can be
    built, whatever its name and whatever fragments follow. *)
Theorem empty_fragment_takes_first (FritzService : string → option Service)
    (S F : list string) :
  try_service FritzService S ("" :: F) = head (omap FritzService S).
Proof.
  cbn [try_service]. rewrite scan_services_spec.
  assert (filter (fun n => matches "" n = true) S = S) as ->.
  { induction S as [|n S IH]; [done|].
    rewrite filter_cons, decide_True, IH; [done|].
    unfold matches. apply contains_empty. }
  destruct (head (omap FritzService S)) eqn:Hh; [done|].
  apply try_service_None. intros f n _ Hn _.
  by apply (proj1 (head_omap_None FritzService S) Hh).
Qed.

(** ** More on the walk *)

Lemma find_conn_nodes_again v :
  Forall (fun r => find_conn_nodes (VDict r) = [r]) (find_conn_nodes v).
Proof.
  apply Forall_forall. intros r Hr%find_conn_nodes_hint.
  by rewrite find_conn_nodes_dict, Hr.
Qed.

(** The walk composes: a list gives the records of its elements in their
    order, a wrapper without hint key is transparent, and walking the
    records that a walk returned gives them back unchanged. *)
Theorem extract_compositional (l1 l2 : list Value) (k : string) (v : Value) :
  find_conn_nodes (VList (l1 ++ l2)) =
    find_conn_nodes (VList l1) ++ find_conn_nodes (VList l2) ∧
  find_conn_nodes (VList [v]) = find_conn_nodes v ∧
  (k ∉ hint_keys → find_conn_nodes (VDict [(k, v)]) = find_conn_nodes v) ∧
  find_conn_nodes (VList (VDict <$> find_conn_nodes v)) = find_conn_nodes v.
Proof.
  split; [|split; [|split]].
  - by rewrite !find_conn_nodes_list, bind_app.
  - rewrite find_conn_nodes_list. cbn. by rewrite app_nil_r.
  - intros Hk. rewrite find_conn_nodes_dict.
    assert (has_hint_key [(k, v)] = false) as ->.
    { destruct (has_hint_key [(k, v)]) eqn:Hh; [|done].
      apply has_hint_key_spec in Hh as (k' & Hk' & Hhint).
      apply list_elem_of_singleton in Hk' as ->. done. }
    cbn. by rewrite app_nil_r.
  - rewrite find_conn_nodes_list.
    induction (find_conn_nodes_again v) as [|r rs Hr _ IH]; [done|].
    rewrite fmap_cons, bind_cons, Hr, IH. done.
Qed.

Lemma extract_compositional_witness :
  find_conn_nodes (VDict [("ConnectionList", Sample.raw)]) = find_conn_nodes Sample.raw.
Proof.
  refine (proj1 (proj2 (proj2
    (extract_compositional [] [] "ConnectionList" Sample.raw))) _).
  by refine (bool_decide_unpack _ _).
Defined.

(** The walk never returns an empty dict or one without a hint key, never
    more records than there are dicts with a hint key, and none exactly
    when there is no such dict. *)
Theorem extract_count_bounds (v : Value) :
  (∀ r, r ∈ find_conn_nodes v → r ≠ [] ∧ has_hint_key r = true) ∧
  (length (find_conn_nodes v) ≤ hint_nodes v)%nat ∧
  (find_conn_nodes v = [] ↔ hint_nodes v = 0%nat).
Proof.
  destruct (find_conn_nodes_bounds v) as (H0 & Hle & Hnil).
  split; [|split; [done|by split]].
  intros r Hr%find_conn_nodes_hint. split; [|done].
  intros ->. by vm_compute in Hr.
Qed.

Lemma extract_count_bounds_witness :
  Sample.conn1 ≠ [] ∧ has_hint_key Sample.conn1 = true.
Proof.
  refine (proj1 (extract_count_bounds Sample.raw) Sample.conn1 _).
  vm_compute. left.
Defined.

(** ** More on the deduplication *)

Section DedupMore.

Variable py_str : Value → string.

Lemma dedup_fixed l :
  NoDup (conn_key py_str <$> l) → dedup py_str l = l.
Proof.
  induction l as [|c l IH] using rev_ind; intros Hnd; [done|].
  rewrite fmap_app in Hnd. apply NoDup_app in Hnd as (Hl & Hdisj & _).
  rewrite dedup_snoc, decide_False, IH; [done..|].
  intros Hin. apply (Hdisj _ Hin). cbn. left.
Qed.

Lemma dedup_known l l2 :
  (∀ c, c ∈ l2 → conn_key py_str c ∈ conn_key py_str <$> l) →
  dedup py_str (l ++ l2) = dedup py_str l.
Proof.
  induction l2 as [|c l2 IH] using rev_ind; intros Hknown.
  - by rewrite app_nil_r.
  - rewrite app_assoc, dedup_snoc, decide_True.
    + apply IH. intros d Hd. apply Hknown, elem_of_app. by left.
    + rewrite fmap_app. apply elem_of_app. left.
      apply Hknown, elem_of_app. right. left.
Qed.

End DedupMore.

(** Deduplicating twice changes nothing more; a list whose keys are already
    distinct is left as it is; records whose keys were all seen before add
    nothing, so collecting the same records a second time does not change
    the unique list; and the output is never longer than the input. *)
Theorem dedup_idempotent (py_str : Value → string) (l l2 : list dict) :
  dedup py_str (dedup py_str l) = dedup py_str l ∧
  (NoDup (conn_key py_str <$> l) → dedup py_str l = l) ∧
  ((∀ c, c ∈ l2 → conn_key py_str c ∈ conn_key py_str <$> l) →
     dedup py_str (l ++ l2) = dedup py_str l) ∧
  dedup py_str (l ++ l) = dedup py_str l ∧
  (length (dedup py_str l) ≤ length l)%nat.
Proof.
  split; [|split; [|split; [|split]]].
  - apply dedup_fixed, dedup_NoDup.
  - apply dedup_fixed.
  - apply dedup_known.
  - apply dedup_known. intros c Hc. by apply list_elem_of_fmap_2.
  - apply sublist_length, dedup_sublist.
Qed.

Lemma dedup_idempotent_witness :
  dedup Sample.py_str ([Sample.conn1] ++ [Sample.conn1]) = dedup Sample.py_str [Sample.conn1].
Proof.
  refine (proj1 (proj2 (proj2
    (dedup_idempotent Sample.py_str [Sample.conn1] [Sample.conn1]))) _).
  intros c ->%list_elem_of_singleton. left.
Defined.

(** ** More on the staleness test *)

Lemma omap_sublist {A B} (f g : A → option B) (l : list A) :
  (∀ a b, f a = Some b → g a = Some b) →
  omap f l `sublist_of` omap g l.
Proof.
  intros Hfg. induction l as [|a l IH]; [done|].
  cbn [omap list_omap]. destruct (f a) as [b|] eqn:Hf.
  - rewrite (Hfg a b Hf). by apply sublist_skip.
  - destruct (g a); [by apply sublist_cons|done].
Qed.

Lemma omap_fmap_sublist {A B C} (f g : A → option B) (h : B → C) (l : list A) :
  (∀ a b, f a = Some b → ∃ b', g a = Some b' ∧ h b' = h b) →
  h <$> omap f l `sublist_of` h <$> omap g l.
Proof.
  intros Hfg. induction l as [|a l IH]; [done|].
  cbn [omap list_omap]. destruct (f a) as [b|] eqn:Hf.
  - destruct (Hfg a b Hf) as (b' & -> & Hh). cbn. rewrite Hh. by apply sublist_skip.
  - destruct (g a); [by apply sublist_cons|done].
Qed.


Section StaleMore.

Variable int_of_text : string → option Z.
Variable strptime_timestamp : string → string → option Z.


Lemma stale_threshold_sublist now t1 t2 l :
  t1 ≤ t2 →
  find_stale int_of_text strptime_timestamp now t2 l `sublist_of`
  find_stale int_of_text strptime_timestamp now t1 l.
Proof.
  intros Ht. rewrite !find_stale_omap. apply omap_sublist.
  intros c x. unfold stale_entry.
  destruct (parse_time_str _ _ _) as [ts|]; [|done].
  destruct (Qle_bool (inject_Z t2) _) eqn:H2; [|done].
  intros <-. apply Qle_bool_iff in H2.
  assert (Qle_bool (inject_Z t1) (now - inject_Z ts) = true) as ->; [|done].
  apply Qle_bool_iff. eapply Qle_trans; [|exact H2]. by rewrite <- Zle_Qle.
Qed.

Lemma stale_time_sublist now1 now2 t l :
  (now1 <= now2)%Q →
  (fun x : dict * Z * Z => x.1.1) <$> find_stale int_of_text strptime_timestamp now1 t l
  `sublist_of`
  (fun x : dict * Z * Z => x.1.1) <$> find_stale int_of_text strptime_timestamp now2 t l.
Proof.
  intros Hn. rewrite !find_stale_omap. apply omap_fmap_sublist.
  intros c x. unfold stale_entry.
  destruct (parse_time_str _ _ _) as [ts|]; [|done].
  destruct (Qle_bool (inject_Z t) (now1 - _)) eqn:H1; [|done].
  intros [= <-]. apply Qle_bool_iff in H1.
  assert (Qle_bool (inject_Z t) (now2 - inject_Z ts) = true) as ->.
  { apply Qle_bool_iff. eapply Qle_trans; [exact H1|].
    apply Qplus_le_compat; [done|apply Qle_refl]. }
  by eexists.
Qed.

End StaleMore.

(** A higher threshold only removes entries from the stale set, and a later
    time of evaluation only adds stale records: both keep the order. *)
Theorem stale_monotone (int_of_text : string → option Z)
    (strptime_timestamp : string → string → option Z)
    (now now' : Q) (t t' : Z) (l : list dict) :
  (t ≤ t' →
     find_stale int_of_text strptime_timestamp now t' l `sublist_of`
     find_stale int_of_text strptime_timestamp now t l) ∧
  ((now <= now')%Q →
     (fun x : dict * Z * Z => x.1.1) <$> find_stale int_of_text strptime_timestamp now t l
     `sublist_of`
     (fun x : dict * Z * Z => x.1.1) <$> find_stale int_of_text strptime_timestamp now' t l).
Proof. split; [apply stale_threshold_sublist|apply stale_time_sublist]. Qed.

Lemma stale_monotone_witness :
  find_stale Sample.int_of_text Sample.strptime_timestamp (inject_Z 101000) 7200
    [Sample.conn1] `sublist_of`
  find_stale Sample.int_of_text Sample.strptime_timestamp (inject_Z 101000) 3600
    [Sample.conn1].
Proof.
  refine (proj1 (stale_monotone Sample.int_of_text Sample.strptime_timestamp
    (inject_Z 101000) (inject_Z 101000) 3600 7200 [Sample.conn1]) _).
  lia.
Defined.



(** After deduplication the records of the stale list have pairwise distinct
    keys, and the stale list is never longer than the list of collected
    records. *)
Theorem stale_keys_distinct (py_str : Value → string) (int_of_text : string → option Z)
    (strptime_timestamp : string → string → option Z)
    (now : Q) (threshold : Z) (l : list dict) :
  NoDup (conn_key py_str <$>
           ((fun x : dict * Z * Z => x.1.1) <$>
              find_stale int_of_text strptime_timestamp now threshold (dedup py_str l))) ∧
  (length (find_stale int_of_text strptime_timestamp now threshold (dedup py_str l))
     ≤ length l)%nat.
Proof.
  pose proof (find_stale_order int_of_text strptime_timestamp now threshold
                (dedup py_str l)) as Hsub.
  split.
  - eapply sublist_NoDup; [apply (dedup_NoDup py_str l)|]. by apply fmap_sublist.
  - apply sublist_length in Hsub. rewrite length_fmap in Hsub.
    pose proof (sublist_length _ _ (dedup_sublist py_str l)). lia.
Qed.

(** ** More on the close calls *)

Lemma get_truthy_lookup (c : dict) k :
  truthy (Dict.get c k) = true → Dict.lookup k c = Some (Dict.get c k).
Proof. unfold Dict.get. by destruct (Dict.lookup k c). Qed.

Lemma py_or_chain (a b : Value) :
  (truthy a = true → py_or (py_or a b) (VStr "") = a) ∧
  (truthy a = false → truthy b = true → py_or (py_or a b) (VStr "") = b) ∧
  (truthy a = false → truthy b = false → py_or (py_or a b) (VStr "") = VStr "").
Proof.
  unfold py_or. destruct (truthy a) eqn:Ha; rewrite ?Ha;
    destruct (truthy b) eqn:Hb; rewrite ?Hb; repeat split; done.
Qed.

(** The endpoint shown in the report and used as fallback: the remote host
    is the value of [RemoteHost] when that is truthy, else the value of
    [Description] when that is truthy, else the empty string; the port
    likewise from [RemotePort] and [Port]. So it is never [None], and when
    it is not the empty string it is the truthy value of a field that the
    record has. *)
Theorem endpoint_defaults_to_empty (c : dict) :
  (truthy (Dict.get c "RemoteHost") = true → resolve_remote c = Dict.get c "RemoteHost") ∧
  (truthy (Dict.get c "RemoteHost") = false → truthy (Dict.get c "Description") = true →
     resolve_remote c = Dict.get c "Description") ∧
  (truthy (Dict.get c "RemoteHost") = false → truthy (Dict.get c "Description") = false →
     resolve_remote c = VStr "") ∧
  (truthy (Dict.get c "RemotePort") = true → resolve_port c = Dict.get c "RemotePort") ∧
  (truthy (Dict.get c "RemotePort") = false → truthy (Dict.get c "Port") = true →
     resolve_port c = Dict.get c "Port") ∧
  (truthy (Dict.get c "RemotePort") = false → truthy (Dict.get c "Port") = false →
     resolve_port c = VStr "") ∧
  (resolve_remote c ≠ VStr "" →
     ∃ k, k ∈ ["RemoteHost"; "Description"] ∧
          Dict.lookup k c = Some (resolve_remote c) ∧ truthy (resolve_remote c) = true) ∧
  (resolve_port c ≠ VStr "" →
     ∃ k, k ∈ ["RemotePort"; "Port"] ∧
          Dict.lookup k c = Some (resolve_port c) ∧ truthy (resolve_port c) = true) ∧
  resolve_remote c ≠ VNone ∧ resolve_port c ≠ VNone.
Proof.
  unfold resolve_remote, resolve_port.
  destruct (py_or_chain (Dict.get c "RemoteHost") (Dict.get c "Description"))
    as (R1 & R2 & R3).
  destruct (py_or_chain (Dict.get c "RemotePort") (Dict.get c "Port"))
    as (P1 & P2 & P3).
  repeat split; try done.
  - intros Hne. destruct (truthy (Dict.get c "RemoteHost")) eqn:Ha.
    + exists "RemoteHost". rewrite R1 by done.
      split; [left|]. split; [by apply get_truthy_lookup|done].
    + destruct (truthy (Dict.get c "Description")) eqn:Hb.
      * exists "Description". rewrite R2 by done.
        split; [right; left|]. split; [by apply get_truthy_lookup|done].
      * by rewrite R3 in Hne.
  - intros Hne. destruct (truthy (Dict.get c "RemotePort")) eqn:Ha.
    + exists "RemotePort". rewrite P1 by done.
      split; [left|]. split; [by apply get_truthy_lookup|done].
    + destruct (truthy (Dict.get c "Port")) eqn:Hb.
      * exists "Port". rewrite P2 by done.
        split; [right; left|]. split; [by apply get_truthy_lookup|done].
      * by rewrite P3 in Hne.
  - destruct (truthy (Dict.get c "RemoteHost")) eqn:Ha.
    + rewrite R1 by done. intros Hn. by rewrite Hn in Ha.
    + destruct (truthy (Dict.get c "Description")) eqn:Hb.
      * rewrite R2 by done. intros Hn. by rewrite Hn in Hb.
      * by rewrite R3.
  - destruct (truthy (Dict.get c "RemotePort")) eqn:Ha.
    + rewrite P1 by done. intros Hn. by rewrite Hn in Ha.
    + destruct (truthy (Dict.get c "Port")) eqn:Hb.
      * rewrite P2 by done. intros Hn. by rewrite Hn in Hb.
      * by rewrite P3.
Qed.

Lemma endpoint_defaults_to_empty_witness :
  resolve_remote Sample.conn_desc = VStr "nas" ∧ resolve_port Sample.conn_desc = VInt 443.
Proof.
  split.
  - exact (proj1 (proj2 (endpoint_defaults_to_empty Sample.conn_desc)) eq_refl eq_refl).
  - exact (proj1 (proj2 (proj2 (proj2 (proj2
      (endpoint_defaults_to_empty Sample.conn_desc))))) eq_refl eq_refl).
Defined.

(** The arguments of a close call never mix the two ways of naming a
    connection. With an identifier they are not empty, every name is one of
    [ConnectionID], [ID], [Id] and every value is the identifier. Without
    one they hold at most the remote host and the remote port, each only
    when it is truthy, and nothing at all when neither is. *)
Theorem close_args_shape (svc : Service) (action : string) (connid remote port : Value) :
  (truthy connid = true →
     build_args svc action connid remote port ≠ [] ∧
     Forall (fun kv => kv.1 ∈ id_params ∧ kv.2 = connid)
       (build_args svc action connid remote port)) ∧
  (truthy connid = false →
     Forall (fun kv => (kv = ("RemoteHost", remote) ∧ truthy remote = true) ∨
                       (kv = ("RemotePort", port) ∧ truthy port = true))
       (build_args svc action connid remote port) ∧
     (truthy remote = false → truthy port = false →
        build_args svc action connid remote port = [])).
Proof.
  split; intros Ht.
  - unfold build_args, id_params. rewrite Ht. cbn [fold_left].
    destruct (existsb (String.eqb "ConnectionID") _),
             (existsb (String.eqb "ID") _),
             (existsb (String.eqb "Id") _);
      cbn; (split; [done|]); rewrite ?Forall_cons, ?Forall_nil; cbn;
      repeat split; try done; by refine (bool_decide_unpack _ _).
  - rewrite build_args_endpoint by done.
    destruct (truthy remote) eqn:Hr, (truthy port) eqn:Hp; cbn;
      (split; [|done]); rewrite ?Forall_cons, ?Forall_nil; naive_solver.
Qed.

Lemma close_args_shape_witness :
  build_args Sample.svc "DeleteConnection" (VStr "") (VStr "") (VStr "") = [].
Proof.
  exact (proj2 (proj2 (close_args_shape Sample.svc "DeleteConnection"
    (VStr "") (VStr "") (VStr "")) eq_refl) eq_refl eq_refl).
Defined.

Section TerminatorMore.

Context {World : Type}.
Variable call_action : Service → string → dict → World → option Value * World.
Variable fromtimestamp : Z → option string.

Lemma terminate_app dry svc l1 l2 (st : Run World) :
  Forall (renderable fromtimestamp) l1 →
  terminate call_action fromtimestamp dry svc (l1 ++ l2) st =
  terminate call_action fromtimestamp dry svc l2
    (terminate call_action fromtimestamp dry svc l1 st).2.
Proof.
  intros Hr. revert st. induction Hr as [|[[c ts] age] l1 [last Hlast] _ IH]; intros st.
  - done.
  - cbn [fst snd] in Hlast. cbn [terminate app]. rewrite Hlast.
    destruct dry; cbn [negb]; [apply IH|].
    destruct (try_close call_action svc close_actions _ _ _ _) as [[|] st2]; apply IH.
Qed.

Lemma terminate_exit dry svc l (st : Run World) :
  (terminate call_action fromtimestamp dry svc l st).1 = Returned ∨
  (terminate call_action fromtimestamp dry svc l st).1 = Uncaught.
Proof.
  revert st. induction l as [|[[c ts] age] l IH]; intros st; [by left|].
  cbn [terminate]. destruct (fromtimestamp ts); [|by right].
  destruct dry; cbn [negb]; [apply IH|].
  destruct (try_close call_action svc close_actions _ _ _ _) as [[|] st2]; apply IH.
Qed.

Lemma try_close_undeclared svc todo connid remote port (st : Run World) :
  declared_among svc todo = [] →
  try_close call_action svc todo connid remote port st = (false, st).
Proof.
  unfold declared_among. induction todo as [|a todo IH]; [done|].
  rewrite filter_cons. cbn [try_close].
  destruct (declares svc a); [by rewrite decide_True|].
  rewrite decide_False by done. apply IH.
Qed.

Lemma filter_ok_failed svc connid remote port (init : list string) :
  filter (fun cl => c_ok cl = true) (close_call svc connid remote port false <$> init) = [].
Proof.
  induction init as [|a init IH]; [done|].
  rewrite fmap_cons, filter_cons, decide_False, IH; done.
Qed.

Lemma try_close_calls_bound svc todo connid remote port (st : Run World) :
  ∃ tried,
    calls (try_close call_action svc todo connid remote port st).2 = calls st ++ tried ∧
    (length tried ≤ length (declared_among svc todo))%nat ∧
    (length (filter (fun cl => c_ok cl = true) tried) ≤ 1)%nat ∧
    Forall (fun cl => c_action cl ∈ todo ∧ declares svc (c_action cl) = true) tried.
Proof.
  assert (∀ a, a ∈ declared_among svc todo → a ∈ todo ∧ declares svc a = true) as Hd.
  { intros a [? ?]%list_elem_of_filter. done. }
  pose proof (try_close_trace call_action svc todo connid remote port st) as H.
  destruct (try_close call_action svc todo connid remote port st) as [[|] st2];
    cbn [fst snd] in *.
  - destruct H as (init & a & post & Hdecl & Hc & _). eexists. split; [exact Hc|].
    rewrite Hdecl in *. split; [|split].
    + rewrite !length_app, length_fmap. cbn. lia.
    + rewrite filter_app, filter_ok_failed. cbn [app].
      etrans; [apply length_filter|]. done.
    + apply Forall_app. split.
      * apply Forall_fmap, Forall_forall. intros x Hx. cbn.
        apply Hd, elem_of_app. by left.
      * constructor; [|constructor]. cbn. apply Hd, elem_of_app. right. left.
  - destruct H as [Hc _]. eexists. split; [exact Hc|]. split; [|split].
    + rewrite length_fmap. lia.
    + rewrite filter_ok_failed. cbn. lia.
    + apply Forall_fmap, Forall_forall. intros x Hx. cbn. by apply Hd.
Qed.

Lemma terminate_calls_bound dry svc l (st : Run World) :
  ∃ new,
    calls (terminate call_action fromtimestamp dry svc l st).2 = calls st ++ new ∧
    (length new ≤ length l * length (declared_among svc close_actions))%nat ∧
    (length (filter (fun cl => c_ok cl = true) new) ≤ length l)%nat ∧
    Forall (fun cl => dry = false ∧ c_action cl ∈ close_actions ∧
                      declares svc (c_action cl) = true) new.
Proof.
  revert st. induction l as [|[[c ts] age] l IH]; intros st.
  - exists []. rewrite app_nil_r. repeat split; try done; cbn; lia.
  - cbn [terminate]. destruct (fromtimestamp ts) as [last|].
    2:{ exists []. rewrite app_nil_r. repeat split; try done; cbn; lia. }
    destruct dry; cbn [negb].
    + match goal with |- context [terminate _ _ true svc l ?s] =>
        destruct (IH s) as (new & Hc & Hlen & Hok & Hall) end.
      exists new. rewrite Hc. cbn [print calls length]. repeat split; try done; lia.
    + match goal with |- context [try_close _ svc close_actions ?a ?b ?c ?s] =>
        destruct (try_close_calls_bound svc close_actions a b c s)
          as (tried & Hc1 & Hlen1 & Hok1 & Hall1);
        destruct (try_close call_action svc close_actions a b c s) as [closed st2] end.
      cbn [snd print calls] in Hc1.
      assert (∃ st3, calls st3 = calls st2 ∧
                terminate call_action fromtimestamp false svc l st3 =
                (if closed then terminate call_action fromtimestamp false svc l st2
                 else terminate call_action fromtimestamp false svc l
                        (print CouldNotClose st2))) as (st3 & Hst3 & Heq).
      { destruct closed; [by exists st2|by exists (print CouldNotClose st2)]. }
      assert ((if closed then terminate call_action fromtimestamp false svc l st2
               else terminate call_action fromtimestamp false svc l
                      (print CouldNotClose st2)) =
              (let (b, st2') := (closed, st2) in
               if b then terminate call_action fromtimestamp false svc l st2'
               else terminate call_action fromtimestamp false svc l
                      (print CouldNotClose st2'))) as Hshape by done.
      cbn in Hshape. destruct closed; rewrite <- Heq;
        destruct (IH st3) as (new & Hc & Hlen & Hok & Hall);
        exists (tried ++ new);
        rewrite Hc, Hst3, Hc1, <- app_assoc;
        (split; [done|]);
        rewrite filter_app, !length_app; cbn [length];
        (split; [lia|]); (split; [lia|]);
        (apply Forall_app; split; [|done]);
        (eapply Forall_impl; [exact Hall1|]); by intros cl [? ?].
Qed.

End TerminatorMore.

(** A timestamp that [fromtimestamp] rejects ends the run with an uncaught
    exception, in either mode: the connections before it are handled, the
    one it belongs to and all after it are neither reported nor closed. *)
Theorem unrenderable_aborts {World : Type}
    (call_action : Service → string → dict → World → option Value * World)
    (fromtimestamp : Z → option string) (dry : bool) (svc : Service)
    (l1 l2 : list (dict * Z * Z)) (x : dict * Z * Z) (st : Run World) :
  Forall (renderable fromtimestamp) l1 →
  fromtimestamp x.1.2 = None →
  terminate call_action fromtimestamp dry svc (l1 ++ x :: l2) st =
  (Uncaught, (terminate call_action fromtimestamp dry svc l1 st).2).
Proof.
  intros Hl1 Hx. rewrite terminate_app by done.
  destruct x as [[c ts] age]. cbn [fst snd] in Hx. cbn [terminate]. by rewrite Hx.
Qed.

Lemma unrenderable_aborts_witness :
  terminate Sample.call_action Sample.fromtimestamp false Sample.svc
    ([] ++ (Sample.conn1, -5, 101005) :: [(Sample.conn1, 1000, 100000)])
    {| world := true; calls := []; printed := [] |} =
  (Uncaught, {| world := true; calls := []; printed := [] |}).
Proof.
  refine (unrenderable_aborts Sample.call_action Sample.fromtimestamp false Sample.svc
            [] [(Sample.conn1, 1000, 100000)] (Sample.conn1, -5, 101005)
            {| world := true; calls := []; printed := [] |} _ eq_refl).
  constructor.
Defined.

(** The loop over the stale connections only ever calls close actions that
    the service declares, never in dry mode, at most once per declared
    candidate and connection (so at most four times per connection), and at
    most one of the calls for a connection succeeds. *)
Theorem close_calls_bounded {World : Type}
    (call_action : Service → string → dict → World → option Value * World)
    (fromtimestamp : Z → option string) (dry : bool) (svc : Service)
    (l : list (dict * Z * Z)) (st : Run World) :
  ∃ new,
    calls (terminate call_action fromtimestamp dry svc l st).2 = calls st ++ new ∧
    (length new ≤ length l * length (declared_among svc close_actions))%nat ∧
    (length new ≤ 4 * length l)%nat ∧
    (length (filter (fun cl => c_ok cl = true) new) ≤ length l)%nat ∧
    Forall (fun cl => dry = false ∧ c_action cl ∈ close_actions ∧
                      declares svc (c_action cl) = true) new.
Proof.
  destruct (terminate_calls_bound call_action fromtimestamp dry svc l st)
    as (new & Hc & Hlen & Hok & Hall).
  exists new. repeat split; try done.
  assert (length (declared_among svc close_actions) ≤ 4)%nat
    by apply (length_filter _ close_actions).
  nia.
Qed.

(** Against a service that declares none of the close actions a live run
    calls nothing and leaves the device alone; every connection whose line
    can be written gets the line and "could not close". *)
Theorem no_close_action_no_call {World : Type}
    (call_action : Service → string → dict → World → option Value * World)
    (fromtimestamp : Z → option string) (svc : Service)
    (l : list (dict * Z * Z)) (st : Run World) :
  declared_among svc close_actions = [] →
  calls (terminate call_action fromtimestamp false svc l st).2 = calls st ∧
  world (terminate call_action fromtimestamp false svc l st).2 = world st ∧
  (Forall (renderable fromtimestamp) l →
     terminate call_action fromtimestamp false svc l st =
     (Returned,
      {| world := world st; calls := calls st;
         printed := printed st ++
                    (l ≫= fun x => [stale_line fromtimestamp x; CouldNotClose]) |})).
Proof.
  intros Hnone. split; [|split].
  - destruct (terminate_calls_bound call_action fromtimestamp false svc l st)
      as (new & Hc & Hlen & _). rewrite Hnone in Hlen. cbn in Hlen.
    destruct new; [by rewrite Hc, app_nil_r|cbn in Hlen; lia].
  - revert st. induction l as [|[[c ts] age] l IH]; intros st; [done|].
    cbn [terminate negb]. destruct (fromtimestamp ts); [|done].
    rewrite try_close_undeclared by done. by rewrite IH.
  - intros Hr. revert st. induction Hr as [|[[c ts] age] l [last Hlast] _ IH]; intros st.
    + cbn. rewrite app_nil_r. by destruct st.
    + cbn [fst snd] in Hlast. cbn [terminate negb]. rewrite Hlast.
      rewrite try_close_undeclared by done. rewrite IH. cbn [print world calls printed].
      rewrite bind_cons. unfold stale_line at 2. cbn [fst snd]. rewrite Hlast.
      cbn [default]. by rewrite <- !app_assoc.
Qed.

Lemma no_close_action_no_call_witness :
  calls (terminate Sample.call_action Sample.fromtimestamp false
           {| service_type := "DeviceInfo"; actions := [("GetInfo", [])] |}
           [(Sample.conn1, 1000, 100000)]
           {| world := true; calls := []; printed := [] |}).2 = [].
Proof.
  exact (proj1 (no_close_action_no_call Sample.call_action Sample.fromtimestamp
    {| service_type := "DeviceInfo"; actions := [("GetInfo", [])] |}
    [(Sample.conn1, 1000, 100000)] {| world := true; calls := []; printed := [] |}
    eq_refl)).
Defined.

(** ** More on the collection and on [main] *)

Section MainMore.

Context {World : Type}.
Variable FritzService : string → option Service.
Variable call_action : Service → string → dict → World → option Value * World.
Variable py_str : Value → string.
Variable int_of_text : string → option Z.
Variable strptime_timestamp : string → string → option Z.
Variable fromtimestamp : Z → option string.

Lemma collect_hint svc acts connections (st : Run World) :
  Forall (fun r => has_hint_key r = true) connections →
  Forall (fun r => has_hint_key r = true) (collect call_action svc acts connections st).1.
Proof.
  revert connections st. induction acts as [|a acts IH]; intros cs st Hcs; [done|].
  rewrite collect_cons. destruct (invoke call_action svc a [] st) as [[res|] st1].
  - apply IH, Forall_app. split; [done|].
    apply Forall_forall. intros r. apply find_conn_nodes_hint.
  - by apply IH.
Qed.

Lemma collect_all_fail svc acts connections (st : Run World) :
  (∀ a w, (call_action svc a [] w).1 = None) →
  (collect call_action svc acts connections st).1 = connections.
Proof.
  intros Hfail. revert st. induction acts as [|a acts IH]; intros st; [done|].
  rewrite collect_cons, invoke_eq, Hfail. apply IH.
Qed.

Lemma port_mapping_info_declared svc (st : Run World) :
  declares svc "GetPortMappingNumberOfEntries" = true →
  world (port_mapping_info call_action int_of_text svc st) =
    (call_action svc "GetPortMappingNumberOfEntries" [] (world st)).2 ∧
  calls (port_mapping_info call_action int_of_text svc st) =
    calls st ++
    [read_call "GetPortMappingNumberOfEntries"
       (bool_decide (is_Some
          (call_action svc "GetPortMappingNumberOfEntries" [] (world st)).1))] ∧
  (∀ items v n,
     (call_action svc "GetPortMappingNumberOfEntries" [] (world st)).1
       = Some (VDict items) →
     Dict.lookup "NewPortMappingNumberOfEntries" items = Some v →
     py_int int_of_text v = Some n →
     printed (port_mapping_info call_action int_of_text svc st) =
       printed st ++ [PortMappings n]) ∧
  ((∀ items v n,
      (call_action svc "GetPortMappingNumberOfEntries" [] (world st)).1
        = Some (VDict items) →
      Dict.lookup "NewPortMappingNumberOfEntries" items = Some v →
      py_int int_of_text v = Some n → False) →
   printed (port_mapping_info call_action int_of_text svc st) = printed st).
Proof.
  intros Hd. unfold port_mapping_info. rewrite Hd, invoke_eq.
  destruct (call_action svc "GetPortMappingNumberOfEntries" [] (world st)) as [res w'].
  cbn [fst snd].
  destruct res as [[| | | |items|]|]; try (by repeat split).
  destruct (Dict.lookup "NewPortMappingNumberOfEntries" items) as [v|] eqn:Hl.
  2:{ repeat split; try done. intros items' v' n' [= <-]. by rewrite Hl. }
  destruct (py_int int_of_text v) as [n|] eqn:Hn.
  - repeat split; try done.
    + intros items' v' n' [= <-]. rewrite Hl. intros [= <-]. rewrite Hn. by intros [= <-].
    + intros Hno. by destruct (Hno items v n).
  - repeat split; try done.
    intros items' v' n' [= <-]. rewrite Hl. intros [= <-]. by rewrite Hn.
Qed.

Abbreviation run_main :=
  (main FritzService call_action py_str int_of_text strptime_timestamp fromtimestamp).



Lemma main_calls dry threshold fc now (w : World) :
  Forall (fun cl => is_read_call cl ∨ (dry = false ∧ c_action cl ∈ close_actions))
    (calls (run_main dry threshold fc now w).2) ∧
  (∀ code, (run_main dry threshold fc now w).1 = SysExit code →
     Forall is_read_call (calls (run_main dry threshold fc now w).2)).
Proof.
  unfold main. destruct fc as [S|]; [|by split; [constructor|intros; constructor]].
  destruct (try_service FritzService S candidates) as [svc|];
    [|by split; [constructor|intros; constructor]].
  pose proof (collect_trace call_action svc actions_to_try []
                (print (UsedService (service_type svc))
                   {| world := w; calls := []; printed := [] |}))
    as (oks & extra & _ & Hcalls & _ & _).
  destruct (collect call_action svc actions_to_try [] _) as [connections st2].
  cbn [fst snd print calls app] in Hcalls.
  assert (Forall is_read_call (calls st2)) as Hst2.
  { rewrite Hcalls. by apply read_calls_zip. }
  assert (∀ l, Forall is_read_call l →
            Forall (fun cl => is_read_call cl ∨ (dry = false ∧ c_action cl ∈ close_actions)) l)
    as Hweak.
  { intros l Hl. eapply Forall_impl; [exact Hl|]. by left. }
  destruct connections as [|c0 connections].
  { cbn [fst snd print calls].
    pose proof (port_mapping_info_calls call_action int_of_text svc st2 Hst2).
    split; [by apply Hweak|done]. }
  destruct (find_stale _ _ _ _ _) as [|x to_kill]; [by split; [apply Hweak|]|].
  destruct (terminate_calls_bound call_action fromtimestamp dry svc (x :: to_kill)
              (print (ToClose (length (x :: to_kill)) dry) st2))
    as (new & Hc & _ & _ & Hall).
  split.
  - rewrite Hc. apply Forall_app. split; [by apply Hweak|].
    eapply Forall_impl; [exact Hall|]. intros cl (? & ? & _). by right.
  - intros code He.
    destruct (terminate_exit call_action fromtimestamp dry svc (x :: to_kill)
                (print (ToClose (length (x :: to_kill)) dry) st2)) as [H|H];
      rewrite H in He; discriminate.
Qed.

Lemma main_all_fail dry threshold S svc now (w : World) :
  try_service FritzService S candidates = Some svc →
  (∀ a w', (call_action svc a [] w').1 = None) →
  (run_main dry threshold (Some S) now w).1 = SysExit 0 ∧
  last (printed (run_main dry threshold (Some S) now w).2) = Some NoConnections.
Proof.
  intros Hsvc Hfail. unfold main. rewrite Hsvc.
  pose proof (collect_all_fail svc actions_to_try []
                (print (UsedService (service_type svc))
                   {| world := w; calls := []; printed := [] |}) Hfail) as Hnil.
  destruct (collect call_action svc actions_to_try [] _) as [connections st2].
  cbn [fst] in Hnil. subst connections. cbn [fst snd print printed].
  split; [done|]. by rewrite last_snoc.
Qed.

End MainMore.

(** Whatever the read actions return, every record that is collected from
    scratch is a non-empty dict with a hint key. *)
Theorem collected_have_hint_key {World : Type}
    (call_action : Service → string → dict → World → option Value * World)
    (svc : Service) (acts : list string) (st : Run World) (r : dict) :
  r ∈ (collect call_action svc acts [] st).1 →
  r ≠ [] ∧ has_hint_key r = true.
Proof.
  intros Hr.
  pose proof (collect_hint call_action svc acts [] st (Forall_nil_2 _)) as Hall.
  rewrite Forall_forall in Hall. specialize (Hall r Hr).
  split; [|done]. intros ->. by vm_compute in Hall.
Qed.

Lemma collected_have_hint_key_witness :
  Sample.conn1 ≠ [] ∧ has_hint_key Sample.conn1 = true.
Proof.
  refine (collected_have_hint_key Sample.call_action Sample.svc actions_to_try
            {| world := true; calls := []; printed := [] |} Sample.conn1 _).
  vm_compute. left.
Defined.

(** The informational query of lines 140-145 never stops the run. It makes
    no call when the action is not declared. When the action is declared it
    makes exactly one call, without arguments, and the device moves on as
    that call says; the count [n] is printed exactly when the call came
    back with a dict whose entry [NewPortMappingNumberOfEntries] converts
    to [n] with [int], and nothing is printed in every other case. *)
Theorem port_mapping_info_quiet {World : Type}
    (call_action : Service → string → dict → World → option Value * World)
    (int_of_text : string → option Z) (svc : Service) (st : Run World) :
  (declares svc "GetPortMappingNumberOfEntries" = false →
     port_mapping_info call_action int_of_text svc st = st) ∧
  (declares svc "GetPortMappingNumberOfEntries" = true →
     world (port_mapping_info call_action int_of_text svc st) =
       (call_action svc "GetPortMappingNumberOfEntries" [] (world st)).2 ∧
     calls (port_mapping_info call_action int_of_text svc st) =
       calls st ++
       [read_call "GetPortMappingNumberOfEntries"
          (bool_decide (is_Some
             (call_action svc "GetPortMappingNumberOfEntries" [] (world st)).1))] ∧
     (∀ items v n,
        (call_action svc "GetPortMappingNumberOfEntries" [] (world st)).1
          = Some (VDict items) →
        Dict.lookup "NewPortMappingNumberOfEntries" items = Some v →
        py_int int_of_text v = Some n →
        printed (port_mapping_info call_action int_of_text svc st) =
          printed st ++ [PortMappings n]) ∧
     ((∀ items v n,
         (call_action svc "GetPortMappingNumberOfEntries" [] (world st)).1
           = Some (VDict items) →
         Dict.lookup "NewPortMappingNumberOfEntries" items = Some v →
         py_int int_of_text v = Some n → False) →
      printed (port_mapping_info call_action int_of_text svc st) = printed st)).
Proof.
  split; [|apply port_mapping_info_declared].
  intros Hd. unfold port_mapping_info. by rewrite Hd.
Qed.

Lemma port_mapping_info_quiet_witness :
  printed (port_mapping_info Sample.call_ports Sample.int_of_text Sample.svc_ports
             {| world := true; calls := []; printed := [] |}) = [] ++ [PortMappings 3].
Proof.
  exact (proj1 (proj2 (proj2 (proj2 (port_mapping_info_quiet Sample.call_ports
    Sample.int_of_text Sample.svc_ports {| world := true; calls := []; printed := [] |})
    eq_refl)))
    [("NewPortMappingNumberOfEntries", VStr "3")] (VStr "3") 3 eq_refl eq_refl eq_refl).
Defined.



(** In either mode a run calls nothing but the read actions, without
    arguments, and, in live mode only, the close actions; a run that ends
    through [sys.exit] has made read calls only. *)
Theorem main_calls_discipline {World : Type}
    (FritzService : string → option Service)
    (call_action : Service → string → dict → World → option Value * World)
    (py_str : Value → string) (int_of_text : string → option Z)
    (strptime_timestamp : string → string → option Z)
    (fromtimestamp : Z → option string)
    (dry : bool) (threshold : Z) (fc : option (list string)) (now : Q) (w : World) :
  Forall (fun cl => is_read_call cl ∨ (dry = false ∧ c_action cl ∈ close_actions))
    (calls (main FritzService call_action py_str int_of_text strptime_timestamp
              fromtimestamp dry threshold fc now w).2) ∧
  (∀ code,
     (main FritzService call_action py_str int_of_text strptime_timestamp fromtimestamp
        dry threshold fc now w).1 = SysExit code →
     Forall is_read_call
       (calls (main FritzService call_action py_str int_of_text strptime_timestamp
                 fromtimestamp dry threshold fc now w).2)).
Proof. apply main_calls. Qed.

(** When every read action raises, the run ends with exit code 0 and the
    line "no connections" as its last one, in either mode. *)
Theorem all_reads_fail_exit_ok {World : Type}
    (FritzService : string → option Service)
    (call_action : Service → string → dict → World → option Value * World)
    (py_str : Value → string) (int_of_text : string → option Z)
    (strptime_timestamp : string → string → option Z)
    (fromtimestamp : Z → option string)
    (dry : bool) (threshold : Z) (S : list string) (svc : Service) (now : Q) (w : World) :
  try_service FritzService S candidates = Some svc →
  (∀ a w', (call_action svc a [] w').1 = None) →
  (main FritzService call_action py_str int_of_text strptime_timestamp fromtimestamp
     dry threshold (Some S) now w).1 = SysExit 0 ∧
  last (printed (main FritzService call_action py_str int_of_text strptime_timestamp
                   fromtimestamp dry threshold (Some S) now w).2) = Some NoConnections.
Proof. apply main_all_fail. Qed.

Lemma all_reads_fail_exit_ok_witness :
  (main Sample.FritzService (fun _ _ _ (w : unit) => (None, w)) Sample.py_str
     Sample.int_of_text Sample.strptime_timestamp Sample.fromtimestamp
     false 3600 (Some ["WANIPConnection1"]) (inject_Z 101000) tt).1 = SysExit 0.
Proof.
  refine (proj1 (all_reads_fail_exit_ok Sample.FritzService
    (fun _ _ _ (w : unit) => (None, w)) Sample.py_str
    Sample.int_of_text Sample.strptime_timestamp Sample.fromtimestamp
    false 3600 ["WANIPConnection1"] Sample.svc (inject_Z 101000) tt eq_refl _)).
  done.
Defined.

Lemma terminate_returned_renderable {World : Type}
    (call_action : Service → string → dict → World → option Value * World)
    (fromtimestamp : Z → option string) (dry : bool) (svc : Service)
    (l : list (dict * Z * Z)) (st : Run World) :
  (terminate call_action fromtimestamp dry svc l st).1 = Returned →
  Forall (renderable fromtimestamp) l.
Proof.
  revert st. induction l as [|[[c ts] age] l IH]; intros st; [constructor|].
  cbn [terminate]. destruct (fromtimestamp ts) as [last|] eqn:Hts; [|done].
  intros He. constructor; [by exists last|].
  destruct dry; cbn [negb] in He; [by eapply IH|].
  destruct (try_close call_action svc close_actions _ _ _ _) as [[|] st2]; by eapply IH.
Qed.

(** The loop over the stale connections comes to its end exactly when every
    stale timestamp can be rendered; otherwise the run dies of the uncaught
    exception. Failing close calls never decide this. *)
Theorem terminate_returns_iff {World : Type}
    (call_action : Service → string → dict → World → option Value * World)
    (fromtimestamp : Z → option string) (dry : bool) (svc : Service)
    (l : list (dict * Z * Z)) (st : Run World) :
  ((terminate call_action fromtimestamp dry svc l st).1 = Returned ↔
   Forall (renderable fromtimestamp) l) ∧
  ((terminate call_action fromtimestamp dry svc l st).1 = Uncaught ↔
   ¬ Forall (renderable fromtimestamp) l).
Proof.
  assert ((terminate call_action fromtimestamp dry svc l st).1 = Returned ↔
          Forall (renderable fromtimestamp) l) as Hiff.
  { split; [apply terminate_returned_renderable|].
    intros Hr. destruct dry.
    - by apply terminate_dry_total.
    - by apply terminate_live_total. }
  split; [done|]. rewrite <- Hiff.
  destruct (terminate_exit call_action fromtimestamp dry svc l st) as [H|H];
    rewrite H; split; done.
Qed.

Lemma terminate_returns_iff_witness :
  Forall (renderable Sample.fromtimestamp) [(Sample.conn1, 1000, 100000)].
Proof.
  exact (proj1 (proj1 (terminate_returns_iff Sample.call_action Sample.fromtimestamp
    false Sample.svc [(Sample.conn1, 1000, 100000)]
    {| world := true; calls := []; printed := [] |})) eq_refl).
Defined.

Lemma main_calls_discipline_witness :
  Forall is_read_call
    (calls (main Sample.FritzService Sample.call_action Sample.py_str
              Sample.int_of_text Sample.strptime_timestamp Sample.fromtimestamp
              false 1000000 (Some ["WANIPConnection1"]) (inject_Z 101000) true).2) ∧
  length (calls (main Sample.FritzService Sample.call_action Sample.py_str
                   Sample.int_of_text Sample.strptime_timestamp Sample.fromtimestamp
                   false 1000000 (Some ["WANIPConnection1"]) (inject_Z 101000) true).2)
  = 5%nat.
Proof.
  split; [|vm_compute; reflexivity].
  refine (proj2 (main_calls_discipline Sample.FritzService Sample.call_action
    Sample.py_str Sample.int_of_text Sample.strptime_timestamp Sample.fromtimestamp
    false 1000000 (Some ["WANIPConnection1"]) (inject_Z 101000) true) 0 _).
  vm_compute. reflexivity.
Defined.

(** ** First success wins, against the answers of the device *)

Section CloseAnswers.

Context {World : Type}.
Variable call_action : Service → string → dict → World → option Value * World.

Lemma try_close_all_fail svc todo connid remote port (st : Run World) w1 :
  all_fail call_action svc connid remote port (declared_among svc todo) (world st)
    = Some w1 →
  try_close call_action svc todo connid remote port st =
  (false,
   {| world := w1;
      calls := calls st ++
               (close_call svc connid remote port false <$> declared_among svc todo);
      printed := printed st |}).
Proof.
  revert st. induction todo as [|x todo IH]; intros st.
  - cbn. intros [= <-]. rewrite app_nil_r. by destruct st.
  - unfold declared_among. rewrite filter_cons. cbn [try_close].
    destruct (declares svc x) eqn:Hd.
    + rewrite decide_True by done. cbn [all_fail]. rewrite invoke_eq.
      destruct (call_action svc x _ (world st)) as [[r|] w'] eqn:Hc; [done|].
      cbn [fst snd]. intros Hall.
      match goal with |- context [try_close _ svc todo _ _ _ ?s] =>
        rewrite (IH s Hall) end.
      cbn. by rewrite <- app_assoc.
    + rewrite decide_False by done. apply IH.
Qed.

Lemma try_close_first_success svc todo connid remote port (st : Run World)
    pre a post w1 r w2 :
  declared_among svc todo = pre ++ a :: post →
  all_fail call_action svc connid remote port pre (world st) = Some w1 →
  call_action svc a (build_args svc a connid remote port) w1 = (Some r, w2) →
  try_close call_action svc todo connid remote port st =
  (true,
   {| world := w2;
      calls := calls st ++ (close_call svc connid remote port false <$> pre)
                        ++ [close_call svc connid remote port true a];
      printed := printed st ++ [Executed a] |}).
Proof.
  revert st pre. induction todo as [|x todo IH]; intros st pre.
  - cbn. by destruct pre.
  - unfold declared_among. rewrite filter_cons. cbn [try_close].
    destruct (declares svc x) eqn:Hd.
    + rewrite decide_True by done. fold (declared_among svc todo).
      destruct pre as [|p pre]; cbn [app all_fail fmap list_fmap].
      * intros [= -> Hpost] [= <-] Hcall. rewrite invoke_eq, Hcall. done.
      * intros [= -> Hdecl]. rewrite invoke_eq.
        destruct (call_action svc p _ (world st)) as [[r'|] w'] eqn:Hc; [done|].
        cbn [fst snd]. intros Hall Hcall.
        match goal with |- context [try_close _ svc todo _ _ _ ?s] =>
          rewrite (IH s pre Hdecl Hall Hcall) end.
        cbn. by rewrite <- app_assoc.
    + rewrite decide_False by done. apply IH.
Qed.

Lemma all_fail_or_success svc connid remote port cands (w : World) :
  (∃ w1, all_fail call_action svc connid remote port cands w = Some w1) ∨
  (∃ pre a post w1 r w2,
     cands = pre ++ a :: post ∧
     all_fail call_action svc connid remote port pre w = Some w1 ∧
     call_action svc a (build_args svc a connid remote port) w1 = (Some r, w2)).
Proof.
  revert w. induction cands as [|x cands IH]; intros w; [left; by eexists|].
  cbn [all_fail].
  destruct (call_action svc x (build_args svc x connid remote port) w)
    as [[r|] w'] eqn:Hc.
  - right. by exists [], x, cands, w, r, w'.
  - destruct (IH w') as [[w1 H1]|(pre & a & post & w1 & r & w2 & -> & H1 & H2)].
    + left. by exists w1.
    + right. exists (x :: pre), a, post, w1, r, w2. cbn [all_fail app].
      by rewrite Hc.
Qed.

End CloseAnswers.

(** C8. In live mode the close actions that the service declares are called
    in ranked order, each with the arguments built for it, on the device as
    the calls before left it. At the first call that comes back the loop
    stops: no later candidate is called and the action is printed. If every
    call raises, all declared candidates were called and "could not close"
    is printed. One of the two always happens, and either way the loop goes
    on with the next stale connection; a run whose lines can all be written
    ends normally with one outcome per stale connection. *)
Theorem first_success_wins {World : Type}
    (call_action : Service → string → dict → World → option Value * World)
    (fromtimestamp : Z → option string)
    (svc : Service) (c : dict) (ts age : Z) (last : string)
    (rest l : list (dict * Z * Z)) (st : Run World) :
  fromtimestamp ts = Some last →
  Forall (renderable fromtimestamp) l →
  let connid := resolve_connid c in
  let remote := resolve_remote c in
  let port := resolve_port c in
  let declared := declared_among svc close_actions in
  let line := StaleLine remote port connid last age in
  (∀ pre a post w1 r w2,
     declared = pre ++ a :: post →
     all_fail call_action svc connid remote port pre (world st) = Some w1 →
     call_action svc a (build_args svc a connid remote port) w1 = (Some r, w2) →
     try_close call_action svc close_actions connid remote port st =
       (true,
        {| world := w2;
           calls := calls st ++ (close_call svc connid remote port false <$> pre)
                             ++ [close_call svc connid remote port true a];
           printed := printed st ++ [Executed a] |}) ∧
     terminate call_action fromtimestamp false svc ((c, ts, age) :: rest) st =
       terminate call_action fromtimestamp false svc rest
         {| world := w2;
            calls := calls st ++ (close_call svc connid remote port false <$> pre)
                              ++ [close_call svc connid remote port true a];
            printed := printed st ++ [line; Executed a] |}) ∧
  (∀ w1,
     all_fail call_action svc connid remote port declared (world st) = Some w1 →
     try_close call_action svc close_actions connid remote port st =
       (false,
        {| world := w1;
           calls := calls st ++ (close_call svc connid remote port false <$> declared);
           printed := printed st |}) ∧
     terminate call_action fromtimestamp false svc ((c, ts, age) :: rest) st =
       terminate call_action fromtimestamp false svc rest
         {| world := w1;
            calls := calls st ++ (close_call svc connid remote port false <$> declared);
            printed := printed st ++ [line; CouldNotClose] |}) ∧
  ((∃ w1, all_fail call_action svc connid remote port declared (world st) = Some w1) ∨
   (∃ pre a post w1 r w2,
      declared = pre ++ a :: post ∧
      all_fail call_action svc connid remote port pre (world st) = Some w1 ∧
      call_action svc a (build_args svc a connid remote port) w1 = (Some r, w2))) ∧
  (terminate call_action fromtimestamp false svc l st).1 = Returned ∧
  (∃ out,
     printed (terminate call_action fromtimestamp false svc l st).2 = printed st ++ out ∧
     length (filter (fun o => is_stale_line o = true) out) = length l ∧
     length (filter (fun o => is_outcome o = true) out) = length l).
Proof.
  intros Hts Hl connid remote port declared line.
  split; [|split; [|split]].
  - intros pre a post w1 r w2 Hdecl Hall Hcall.
    split; [by eapply try_close_first_success|].
    rewrite (terminate_live_step _ _ _ _ _ _ _ last) by done.
    fold connid remote port line.
    rewrite (try_close_first_success call_action svc close_actions connid remote port
               (print line st) pre a post w1 r w2 Hdecl Hall Hcall).
    cbn [fst snd print world calls printed]. by rewrite <- app_assoc.
  - intros w1 Hall. split; [by apply try_close_all_fail|].
    rewrite (terminate_live_step _ _ _ _ _ _ _ last) by done.
    fold connid remote port line.
    rewrite (try_close_all_fail call_action svc close_actions connid remote port
               (print line st) w1 Hall).
    cbv zeta. cbn [fst snd]. unfold print. cbn. by rewrite <- app_assoc.
  - apply all_fail_or_success.
  - by apply terminate_live_total.
Qed.

Lemma first_success_wins_witness :
  terminate Sample.call_action Sample.fromtimestamp false Sample.svc
    [(Sample.conn1, 1000, 100000)] {| world := true; calls := []; printed := [] |} =
  (Returned,
   {| world := false;
      calls := [{| c_action := "DeleteConnection";
                   c_args := [("ConnectionID", VStr "1")]; c_ok := true |}];
      printed := [StaleLine (VStr "1.2.3.4") (VStr "80") (VStr "1") "1000" 100000;
                  Executed "DeleteConnection"] |}).
Proof.
  refine (proj2 (proj1 (first_success_wins Sample.call_action Sample.fromtimestamp
    Sample.svc Sample.conn1 1000 100000 (pretty 1000) [] [(Sample.conn1, 1000, 100000)]
    {| world := true; calls := []; printed := [] |} _ _)
    [] "DeleteConnection" [] true VNone false _ _ _)).
  - reflexivity.
  - constructor; [|constructor]. by eexists.
  - vm_compute. reflexivity.
  - reflexivity.
  - reflexivity.
Defined.

(** ** The staleness test in the arithmetic of the interpreter *)

(** [int(age)] is the integer part of its argument, towards zero. *)
Lemma py_trunc_spec (q : Q) :
  ((0 <= q)%Q → (inject_Z (py_trunc q) <= q)%Q ∧ (q < inject_Z (py_trunc q) + 1)%Q) ∧
  ((q <= 0)%Q → (inject_Z (py_trunc q) - 1 < q)%Q ∧ (q <= inject_Z (py_trunc q))%Q).
Proof.
  destruct q as [n d]. unfold py_trunc, Qle, Qlt. cbn.
  pose proof (Z.quot_rem' n (Z.pos d)) as Hqr.
  split; intros Hn.
  - pose proof (Z.rem_bound_pos n (Z.pos d)) as Hr. nia.
  - pose proof (Z.rem_bound_pos (- n) (Z.pos d)) as Hr.
    rewrite Z.rem_opp_l in Hr by lia. nia.
Qed.

Lemma py_trunc_Qeq (p q : Q) : (p == q)%Q → py_trunc p = py_trunc q.
Proof.
  destruct p as [a b], q as [c d]. unfold Qeq, py_trunc. cbn. intros H.
  rewrite <- (Z.quot_mul_cancel_r a (Z.pos b) (Z.pos d)) by lia.
  rewrite H, (Z.mul_comm (Z.pos b) (Z.pos d)).
  apply Z.quot_mul_cancel_r; lia.
Qed.

Lemma ge_int_value (d : spec_float) (q : Q) (n : Z) :
  Float.value d = Some q → Float.ge_int d n = Qle_bool (inject_Z n) q.
Proof.
  destruct d as [s|s| |s m e]; try done; unfold Float.ge_int; by intros ->.
Qed.

Section StaleFloat.

Variable int_of_text : string → option Z.
Variable strptime_timestamp : string → string → option Z.

Abbreviation fparse := (parse_time_str int_of_text strptime_timestamp).
Abbreviation fentry := (stale_entry_float int_of_text strptime_timestamp).
Abbreviation floop := (stale_loop_float int_of_text strptime_timestamp).
Abbreviation fstale := (find_stale_float int_of_text strptime_timestamp).

Lemma stale_loop_float_Some now threshold l acc out :
  floop now threshold l acc = Some out →
  out = acc ++ omap (fentry now threshold) l.
Proof.
  revert acc. induction l as [|c l IH]; intros acc; cbn [stale_loop_float omap list_omap].
  - intros [= <-]. by rewrite app_nil_r.
  - unfold stale_step_float, stale_entry_float.
    destruct (fparse (first_field c time_fields)) as [ts|]; [|apply IH].
    destruct (Float.of_int ts) as [f|]; [|done].
    destruct (Float.ge_int (Float.sub now f) threshold); [|apply IH].
    destruct (Float.to_int (Float.sub now f)) as [n|]; [|done].
    intros ->%IH. by rewrite <- app_assoc.
Qed.

Lemma stale_loop_float_ok now threshold l acc :
  (∀ c ts, c ∈ l → fparse (first_field c time_fields) = Some ts →
           float_steps_ok now ts) →
  floop now threshold l acc = Some (acc ++ omap (fentry now threshold) l).
Proof.
  revert acc. induction l as [|c l IH]; intros acc Hok;
    cbn [stale_loop_float omap list_omap].
  - by rewrite app_nil_r.
  - assert (∀ c' ts, c' ∈ l → fparse (first_field c' time_fields) = Some ts →
                     float_steps_ok now ts) as Hok'.
    { intros c' ts Hc'. apply Hok. by right. }
    unfold stale_step_float, stale_entry_float.
    destruct (fparse (first_field c time_fields)) as [ts|] eqn:Hts; [|by apply IH].
    destruct (Hok c ts (list_elem_of_here _ _) Hts) as (f & -> & [d Hd]).
    destruct (Float.ge_int (Float.sub now f) threshold); [|by apply IH].
    unfold Float.to_int. rewrite Hd, IH by done. by rewrite <- app_assoc.
Qed.

Lemma stale_entry_float_eval now threshold c ts f d :
  fparse (first_field c time_fields) = Some ts →
  Float.of_int ts = Some f →
  Float.value (Float.sub now f) = Some d →
  fentry now threshold c =
    if Qle_bool (inject_Z threshold) d then Some (c, ts, py_trunc d) else None.
Proof.
  intros Hts Hf Hd. unfold stale_entry_float, Float.to_int.
  by rewrite Hts, Hf, (ge_int_value _ d), Hd.
Qed.

Lemma stale_entry_float_fst now threshold c x :
  fentry now threshold c = Some x → x.1.1 = c.
Proof.
  unfold stale_entry_float.
  destruct (fparse _) as [ts|]; [|done]. destruct (Float.of_int ts) as [f|]; [|done].
  destruct (Float.ge_int _ _); [|done]. destruct (Float.to_int _); [|done].
  by intros [= <-].
Qed.

Lemma stale_float_order now threshold l :
  (fun x : dict * Z * Z => x.1.1) <$> omap (fentry now threshold) l `sublist_of` l.
Proof.
  induction l as [|c l IH]; [done|].
  cbn [omap list_omap]. destruct (fentry now threshold c) as [x|] eqn:He.
  - apply stale_entry_float_fst in He as <-. cbn. by apply sublist_skip.
  - by apply sublist_cons.
Qed.

(** A timestamp beyond the range of floats ends the loop with the
    [OverflowError] of line 176, wherever its record stands. *)
Lemma stale_float_overflow now threshold l c ts :
  c ∈ l → fparse (first_field c time_fields) = Some ts → Float.of_int ts = None →
  fstale now threshold l = None.
Proof.
  unfold find_stale_float. generalize (@nil (dict * Z * Z)).
  induction l as [|c0 l IH]; intros acc Hc Hts Hf; [by apply elem_of_nil in Hc|].
  cbn [stale_loop_float].
  destruct (stale_step_float _ _ now threshold acc c0) as [acc'|] eqn:Hstep; [|done].
  apply elem_of_cons in Hc as [->|Hc]; [|by apply IH].
  unfold stale_step_float in Hstep. by rewrite Hts, Hf in Hstep.
Qed.

(** Where every float step is exact, the loop gives what the loop over the
    exact clock gives. *)
Lemma find_stale_float_exact now nq threshold l :
  (∀ c ts, c ∈ l → fparse (first_field c time_fields) = Some ts →
     ∃ f d, Float.of_int ts = Some f ∧ Float.value (Float.sub now f) = Some d ∧
            (d == nq - inject_Z ts)%Q) →
  fstale now threshold l =
  Some (find_stale int_of_text strptime_timestamp nq threshold l).
Proof.
  intros Hex. unfold find_stale_float. rewrite stale_loop_float_ok.
  2:{ intros c ts Hc Hts. destruct (Hex c ts Hc Hts) as (f & d & Hf & Hd & _).
      exists f. by rewrite Hd. }
  rewrite find_stale_omap. cbn [app]. f_equal.
  induction l as [|c l IH]; [done|]. cbn [omap list_omap].
  rewrite IH by (intros c' ts Hc'; apply Hex; by right).
  assert (fentry now threshold c =
          stale_entry int_of_text strptime_timestamp nq threshold c) as ->; [|done].
  unfold stale_entry.
  destruct (fparse (first_field c time_fields)) as [ts|] eqn:Hts.
  - destruct (Hex c ts (list_elem_of_here _ _) Hts) as (f & d & Hf & Hd & Hq).
    rewrite (stale_entry_float_eval now threshold c ts f d) by done.
    rewrite (py_trunc_Qeq _ _ Hq).
    assert (Qle_bool (inject_Z threshold) d =
            Qle_bool (inject_Z threshold) (nq - inject_Z ts)) as ->; [|done].
    apply eq_true_iff_eq. rewrite !Qle_bool_iff. by rewrite Hq.
  - unfold stale_entry_float. by rewrite Hts.
Qed.

End StaleFloat.

(** C5, as the code has it. Take a run of the loop in which every parsed
    timestamp converts to a float and gives a finite difference. For a
    record with parsed timestamp [ts], let [d] be the difference that line
    176 computes: [ts] converted to binary64 and subtracted from [now] with
    rounding. The record is in the stale set exactly when [d >= threshold],
    carried with [ts] and the age [int(d)], the integer part of [d]. Where
    [d] is the exact difference [now - ts], this is [now - ts >= threshold]
    with the age [int(now - ts)], which is [now - ts] for a whole [now].
    Every record is decided on its own and the stale set keeps the order
    of the input. *)
Theorem stale_iff_float_threshold (int_of_text : string → option Z)
    (strptime_timestamp : string → string → option Z)
    (now : spec_float) (threshold : Z) (l : list dict) (c : dict) (ts : Z) :
  (∀ c' ts', c' ∈ l →
     parse_time_str int_of_text strptime_timestamp (first_field c' time_fields) = Some ts' →
     float_steps_ok now ts') →
  c ∈ l →
  parse_time_str int_of_text strptime_timestamp (first_field c time_fields) = Some ts →
  ∃ out f d,
    find_stale_float int_of_text strptime_timestamp now threshold l = Some out ∧
    Float.of_int ts = Some f ∧
    Float.value (Float.sub now f) = Some d ∧
    ((c, ts, py_trunc d) ∈ out ↔ (inject_Z threshold <= d)%Q) ∧
    (∀ ts' age, (c, ts', age) ∈ out →
       ts' = ts ∧ age = py_trunc d ∧ (inject_Z threshold <= d)%Q) ∧
    ((0 <= d)%Q → (inject_Z (py_trunc d) <= d)%Q ∧ (d < inject_Z (py_trunc d) + 1)%Q) ∧
    ((d <= 0)%Q → (inject_Z (py_trunc d) - 1 < d)%Q ∧ (d <= inject_Z (py_trunc d))%Q) ∧
    (∀ nq, Float.value now = Some nq → (d == nq - inject_Z ts)%Q →
       ((c, ts, py_trunc (nq - inject_Z ts)) ∈ out ↔
        (inject_Z threshold <= nq - inject_Z ts)%Q) ∧
       (∀ T, (nq == inject_Z T)%Q → py_trunc d = T - ts)) ∧
    out = omap (stale_entry_float int_of_text strptime_timestamp now threshold) l ∧
    (fun x : dict * Z * Z => x.1.1) <$> out `sublist_of` l.
Proof.
  intros Hok Hc Hts. destruct (Hok c ts Hc Hts) as (f & Hf & [d Hd]).
  exists (omap (stale_entry_float int_of_text strptime_timestamp now threshold) l), f, d.
  pose proof (stale_entry_float_eval int_of_text strptime_timestamp now threshold
                c ts f d Hts Hf Hd) as Heval.
  assert ((c, ts, py_trunc d)
            ∈ omap (stale_entry_float int_of_text strptime_timestamp now threshold) l ↔
          (inject_Z threshold <= d)%Q) as Hiff.
  { rewrite list_elem_of_omap. split.
    - intros (c' & Hc' & He). pose proof (stale_entry_float_fst _ _ _ _ _ _ He) as Hfst.
      cbn in Hfst. subst c'. rewrite Heval in He.
      destruct (Qle_bool (inject_Z threshold) d) eqn:Hle; [|done].
      by apply Qle_bool_iff.
    - intros Hle%Qle_bool_iff. exists c. by rewrite Heval, Hle. }
  split; [apply (stale_loop_float_ok _ _ now threshold l [] Hok)|].
  split; [done|]. split; [done|]. split; [done|].
  split; [|split; [apply py_trunc_spec|split; [apply py_trunc_spec|split; [|split]]]].
  - intros ts' age (c' & Hc' & He)%list_elem_of_omap.
    pose proof (stale_entry_float_fst _ _ _ _ _ _ He) as Hfst.
    cbn in Hfst. subst c'. rewrite Heval in He.
    destruct (Qle_bool (inject_Z threshold) d) eqn:Hle; [|done].
    injection He as <- <-. by apply Qle_bool_iff in Hle.
  - intros nq _ Hq. split.
    + rewrite <- (py_trunc_Qeq _ _ Hq), Hiff. by rewrite Hq.
    + intros T HT. rewrite (py_trunc_Qeq d (inject_Z T - inject_Z ts)).
      * apply py_trunc_whole.
      * by rewrite Hq, HT.
  - done.
  - apply stale_float_order.
Qed.

Lemma stale_iff_float_threshold_witness :
  find_stale_float Sample.int_of_text Sample.strptime_timestamp Sample.now_half 3600
    [Sample.conn1] = Some [(Sample.conn1, 1000, 100000)].
Proof.
  destruct (stale_iff_float_threshold Sample.int_of_text Sample.strptime_timestamp
              Sample.now_half 3600 [Sample.conn1] Sample.conn1 1000)
    as (out & f & d & Hout & Hf & Hd & _ & _ & _ & _ & _ & Hspec & _).
  - intros c' ts' ->%list_elem_of_singleton [= <-].
    eexists. split; [reflexivity|]. vm_compute. by eexists.
  - left.
  - reflexivity.
  - rewrite Hout, Hspec. vm_compute. reflexivity.
Defined.

(** C5 as stated fails where the subtraction rounds. At the largest float
    below 1700000001, a record last active at -500000000 has
    [now - ts < 2200000001]; the float difference rounds up to 2200000001.0,
    so with that threshold the record is stale, and the age it carries is
    2200000001 where [int(now - ts)] is 2200000000. *)
Lemma stale_rounding_decides :
  find_stale_float Sample.int_of_text Sample.strptime_timestamp Sample.now_edge
    2200000001 [Sample.conn_old] = Some [(Sample.conn_old, -500000000, 2200000001)] ∧
  Float.value Sample.now_edge = Some (7130316804194303 # 4194304) ∧
  ¬ (inject_Z 2200000001 <= (7130316804194303 # 4194304) - inject_Z (-500000000))%Q ∧
  py_trunc ((7130316804194303 # 4194304) - inject_Z (-500000000)) = 2200000000.
Proof.
  split; [vm_compute; reflexivity|]. split; [vm_compute; reflexivity|].
  split; [|vm_compute; reflexivity].
  intros H. vm_compute in H. by apply H.
Qed.

(** A timestamp beyond the float range: the loop raises at line 176. *)
Example stale_overflow_example :
  find_stale_float Sample.int_of_text Sample.strptime_timestamp Sample.now_whole 3600
    [Sample.conn1; Sample.conn_huge] = None.
Proof.
  apply (stale_float_overflow _ _ _ _ _ Sample.conn_huge (10 ^ 400)).
  - right. left.
  - reflexivity.
  - vm_compute. reflexivity.
Qed.

(** The whole run with the float clock: the end-to-end example gives what
    it gives over the exact clock, and a timestamp beyond the float range
    ends the run with the uncaught exception, before anything is reported. *)
Example main_float_examples :
  main_float Sample.FritzService Sample.call_action Sample.py_str Sample.int_of_text
    Sample.strptime_timestamp Sample.fromtimestamp true 3600
    (Some ["WANIPConnection1"]) Sample.now_whole true =
  main Sample.FritzService Sample.call_action Sample.py_str Sample.int_of_text
    Sample.strptime_timestamp Sample.fromtimestamp true 3600
    (Some ["WANIPConnection1"]) (inject_Z 101000) true ∧
  (main_float Sample.FritzService Sample.call_huge Sample.py_str Sample.int_of_text
     Sample.strptime_timestamp Sample.fromtimestamp true 3600
     (Some ["WANIPConnection1"]) Sample.now_whole true).1 = Uncaught.
Proof. split; vm_compute; reflexivity. Qed.
